(** * A file-access tool server confined to one directory

    Shallow embedding of [src/index.ts]: the path guard [validatePath] and the
    three tool handlers [read_file], [write_file] and [list_files], together
    with models of the Node.js library calls they make ([path.resolve],
    [path.dirname], [fs.readFile], [fs.mkdir], [fs.writeFile], [fs.readdir]).

    Strings are JavaScript strings: finite sequences of UTF-16 code units.
    File contents are bytes; text is written and read in UTF-8.  Paths follow
    the POSIX flavour of Node's [path] module.  The handlers are [async]
    functions that await one [fs] call after the other; they are run here as
    functions from a world (the file tree and the record of the [fs] calls
    made) to a world and either a returned value or a thrown one.
    [process.cwd()] and [__dirname] are fixed strings of the process and are
    taken never to fail. *)

From Stdlib Require Import NArith String Ascii List Lia.
From stdpp Require Import gmap list.

Local Open Scope N_scope.

(** ** JavaScript strings *)

Module Js.

(** A string is the list of its UTF-16 code units. *)
Definition jsstring := list N.

(** An ASCII literal of the source, as a JavaScript string. *)
Definition lit (s : string) : jsstring :=
  map N_of_ascii (list_ascii_of_string s).

Arguments lit : simpl never.

Definition CHAR_FORWARD_SLASH : N := 47.
Definition CHAR_DOT : N := 46.

(** [s.startsWith(pre)] *)
Fixpoint startsWith (s pre : jsstring) {struct pre} : bool :=
  match pre with
  | [] => true
  | c :: pre' =>
      match s with
      | [] => false
      | d :: s' => if N.eqb d c then startsWith s' pre' else false
      end
  end.

(** [s.includes(needle)] *)
Fixpoint includes (s needle : jsstring) : bool :=
  if startsWith s needle then true
  else match s with
       | [] => false
       | _ :: s' => includes s' needle
       end.

(** [parts.join(sep)] *)
Fixpoint join (sep : jsstring) (parts : list jsstring) : jsstring :=
  match parts with
  | [] => []
  | [p] => p
  | p :: rest => p ++ sep ++ join sep rest
  end.

(** [s.split(sep)] for a one-unit separator: never empty, the pieces are the
    maximal runs without the separator. *)
Fixpoint split (sep : N) (s : jsstring) : list jsstring :=
  match s with
  | [] => [[]]
  | c :: s' =>
      if N.eqb c sep then [] :: split sep s'
      else match split sep s' with
           | [] => [[c]]
           | p :: ps => (c :: p) :: ps
           end
  end.

Definition eqb (a b : jsstring) : bool := bool_decide (a = b).

End Js.

Export Js.

(** ** Node's [path] module, POSIX flavour *)

Module Path.

Definition sep : jsstring := [CHAR_FORWARD_SLASH].

Definition dot : jsstring := [CHAR_DOT].
Definition dotdot : jsstring := [CHAR_DOT; CHAR_DOT].

(** [normalizeString(path, allowAboveRoot, "/", isPosixPathSeparator)], read
    segment by segment.  [acc] is the result so far, last segment first.  An
    empty segment and [.] are dropped; [..] removes the last segment unless
    there is none or it is itself [..], in which case [..] is kept only when
    [allowAboveRoot]. *)
Fixpoint normalize_segs (allowAboveRoot : bool) (acc : list jsstring)
    (segs : list jsstring) : list jsstring :=
  match segs with
  | [] => rev acc
  | s :: rest =>
      if Js.eqb s [] || Js.eqb s dot then normalize_segs allowAboveRoot acc rest
      else if Js.eqb s dotdot then
        match acc with
        | t :: acc' =>
            if Js.eqb t dotdot then
              normalize_segs allowAboveRoot
                (if allowAboveRoot then dotdot :: acc else acc) rest
            else normalize_segs allowAboveRoot acc' rest
        | [] =>
            normalize_segs allowAboveRoot
              (if allowAboveRoot then [dotdot] else []) rest
        end
      else normalize_segs allowAboveRoot (s :: acc) rest
  end.

Definition normalizeString (p : jsstring) (allowAboveRoot : bool) : jsstring :=
  join sep (normalize_segs allowAboveRoot [] (split CHAR_FORWARD_SLASH p)).

Definition isAbsolute (p : jsstring) : bool :=
  match p with
  | c :: _ => N.eqb c CHAR_FORWARD_SLASH
  | [] => false
  end.

(** [path.resolve(p)] with one argument, [cwd] being the value of
    [process.cwd()].  Node walks the arguments from the right, then the
    working directory, prepending each non-empty one until the path is
    absolute, and normalizes the result. *)
Definition resolve (cwd p : jsstring) : jsstring :=
  let '(resolvedPath, resolvedAbsolute) :=
    match p with
    | [] => ([], false)
    | _ => (p ++ sep ++ [], isAbsolute p)
    end in
  let '(resolvedPath, resolvedAbsolute) :=
    if resolvedAbsolute then (resolvedPath, resolvedAbsolute)
    else match cwd with
         | [] => (resolvedPath, resolvedAbsolute)
         | _ => (cwd ++ sep ++ resolvedPath, isAbsolute cwd)
         end in
  let normalized := normalizeString resolvedPath (negb resolvedAbsolute) in
  if resolvedAbsolute then sep ++ normalized
  else match normalized with
       | [] => dot
       | _ => normalized
       end.

(** [path.dirname(p)]: scan from the right down to index 1, skip trailing
    separators, then the last segment, and cut at the separator found. *)
Fixpoint skip_slashes (r : jsstring) : jsstring :=
  match r with
  | c :: r' => if N.eqb c CHAR_FORWARD_SLASH then skip_slashes r' else r
  | [] => []
  end.

Fixpoint cut_at_slash (r : jsstring) : option jsstring :=
  match r with
  | c :: r' => if N.eqb c CHAR_FORWARD_SLASH then Some r' else cut_at_slash r'
  | [] => None
  end.

Definition dirname (p : jsstring) : jsstring :=
  match p with
  | [] => dot
  | c0 :: rest =>
      let hasRoot := N.eqb c0 CHAR_FORWARD_SLASH in
      match cut_at_slash (skip_slashes (rev rest)) with
      | None => if hasRoot then sep else dot
      | Some kept =>
          match kept with
          | [] => if hasRoot then sep ++ sep else [c0]
          | _ => c0 :: rev kept
          end
      end
  end.

(** The absolute path made of the given names. *)
Definition render (segs : list jsstring) : jsstring := sep ++ join sep segs.

(** A name: not empty and free of separators; a proper name is moreover
    neither [.] nor [..]. *)
Definition no_sep (s : jsstring) : Prop := CHAR_FORWARD_SLASH ∉ s.
Definition plain (s : jsstring) : Prop := s <> [] /\ no_sep s.
Definition proper (s : jsstring) : Prop :=
  s <> [] /\ s <> dot /\ s <> dotdot /\ no_sep s.

End Path.

(** ** Text encoding

    [fs.writeFile(p, data, "utf-8")] stores the UTF-8 encoding of [data] and
    [fs.readFile(p, "utf-8")] decodes the stored bytes.  A byte is an [N]
    below 256.  The encoder replaces every unpaired surrogate by U+FFFD; the
    decoder replaces every ill-formed byte sequence by U+FFFD. *)

Module Utf8.

Definition REPLACEMENT : N := 0xFFFD.

Definition is_high (u : N) : bool := (0xD800 <=? u) && (u <=? 0xDBFF).
Definition is_low (u : N) : bool := (0xDC00 <=? u) && (u <=? 0xDFFF).

(** [s.isWellFormed()]: no unpaired surrogate. *)
Fixpoint isWellFormed (s : jsstring) : bool :=
  match s with
  | [] => true
  | u :: s' =>
      if is_high u then
        match s' with
        | v :: s'' => is_low v && isWellFormed s''
        | [] => false
        end
      else if is_low u then false
      else (u <? 0x10000) && isWellFormed s'
  end.

(** The code points of a string, surrogate pairs combined. *)
Fixpoint code_points (s : jsstring) : list N :=
  match s with
  | [] => []
  | u :: s' =>
      if is_high u then
        match s' with
        | v :: s'' =>
            if is_low v
            then (0x10000 + (u - 0xD800) * 0x400 + (v - 0xDC00)) :: code_points s''
            else REPLACEMENT :: code_points s'
        | [] => [REPLACEMENT]
        end
      else if is_low u then REPLACEMENT :: code_points s'
      else u :: code_points s'
  end.

Definition encode_point (cp : N) : list N :=
  if cp <? 0x80 then [cp]
  else if cp <? 0x800 then [0xC0 + cp / 64; 0x80 + cp mod 64]
  else if cp <? 0x10000 then
    [0xE0 + cp / 4096; 0x80 + (cp / 64) mod 64; 0x80 + cp mod 64]
  else
    [0xF0 + cp / 262144; 0x80 + (cp / 4096) mod 64;
     0x80 + (cp / 64) mod 64; 0x80 + cp mod 64].

Definition encode (s : jsstring) : list N :=
  flat_map encode_point (code_points s).

Definition between (lo hi b : N) : bool := (lo <=? b) && (b <=? hi).
Definition is_cont (b : N) : bool := between 0x80 0xBF b.

(** Bounds on the second byte of a three- or four-byte sequence. *)
Definition second_lo (b0 : N) : N :=
  if b0 =? 0xE0 then 0xA0 else if b0 =? 0xF0 then 0x90 else 0x80.
Definition second_hi (b0 : N) : N :=
  if b0 =? 0xED then 0x9F else if b0 =? 0xF4 then 0x8F else 0xBF.

Fixpoint decode_points (bs : list N) : list N :=
  match bs with
  | [] => []
  | b0 :: r0 =>
      if b0 <? 0x80 then b0 :: decode_points r0
      else if between 0xC2 0xDF b0 then
        match r0 with
        | b1 :: r1 =>
            if is_cont b1
            then ((b0 - 0xC0) * 64 + (b1 - 0x80)) :: decode_points r1
            else REPLACEMENT :: decode_points r0
        | [] => [REPLACEMENT]
        end
      else if between 0xE0 0xEF b0 then
        match r0 with
        | b1 :: r1 =>
            if between (second_lo b0) (second_hi b0) b1 then
              match r1 with
              | b2 :: r2 =>
                  if is_cont b2
                  then ((b0 - 0xE0) * 4096 + (b1 - 0x80) * 64 + (b2 - 0x80))
                         :: decode_points r2
                  else REPLACEMENT :: decode_points r1
              | [] => [REPLACEMENT]
              end
            else REPLACEMENT :: decode_points r0
        | [] => [REPLACEMENT]
        end
      else if between 0xF0 0xF4 b0 then
        match r0 with
        | b1 :: r1 =>
            if between (second_lo b0) (second_hi b0) b1 then
              match r1 with
              | b2 :: r2 =>
                  if is_cont b2 then
                    match r2 with
                    | b3 :: r3 =>
                        if is_cont b3
                        then ((b0 - 0xF0) * 262144 + (b1 - 0x80) * 4096
                              + (b2 - 0x80) * 64 + (b3 - 0x80))
                               :: decode_points r3
                        else REPLACEMENT :: decode_points r2
                    | [] => [REPLACEMENT]
                    end
                  else REPLACEMENT :: decode_points r1
              | [] => [REPLACEMENT]
              end
            else REPLACEMENT :: decode_points r0
        | [] => [REPLACEMENT]
        end
      else REPLACEMENT :: decode_points r0
  end.

Definition units_of_point (cp : N) : list N :=
  if cp <? 0x10000 then [cp]
  else [0xD800 + (cp - 0x10000) / 0x400; 0xDC00 + (cp - 0x10000) mod 0x400].

Definition decode (bs : list N) : jsstring :=
  flat_map units_of_point (decode_points bs).

(** A Unicode scalar value: a code point that is not a surrogate. *)
Definition is_scalar (cp : N) : Prop :=
  cp < 0xD800 \/ (0xE000 <= cp /\ cp < 0x110000).

End Utf8.

(** ** The file system behind Node's [fs] module

    A finite tree of regular files, directories and other entries, kept as a
    map from the list of names leading to an entry to the entry itself; the
    root is a directory and has the empty list.  The model does not follow
    symbolic links nor open devices, sockets or pipes: such entries are
    leaves that can be listed but neither opened nor traversed.

    The limits of the model: names are compared as strings of code units,
    while the system compares the UTF-8 bytes Node hands it; every regular
    file has one name (no hard links); no call is refused for a NUL in the
    path, a name or path that is too long, a missing permission or a full
    disk; and a listing comes in the order of the map, not of the disk.  The
    properties that depend on these limits are stated under [Scope.ordinary]
    and [Scope.sound_path], defined below. *)

Module Fs.

Inductive special := Symlink | Socket | Fifo | CharDevice | BlockDevice.

Inductive node :=
  | File (content : list N)
  | Directory
  | Special (k : special).

Inductive errno := ENOENT | ENOTDIR | EISDIR | EEXIST | ELOOP | ENXIO.

Global Instance special_eq_dec : EqDecision special.
Proof. solve_decision. Defined.

Global Instance node_eq_dec : EqDecision node.
Proof. solve_decision. Defined.

(** What a [fs.Dirent] knows about its entry. *)
Record Dirent := { name : jsstring; entry : node }.

Definition isDirectory (d : Dirent) : bool :=
  match entry d with Directory => true | _ => false end.

Definition root_dir : list jsstring := [].

(** The names of a path handed to the operating system: the non-empty pieces
    between separators.  Every path the handlers pass on comes out of
    [path.resolve], directly or through [path.dirname]: it is absolute and
    free of [.] and [..]. *)
Definition names (p : jsstring) : list jsstring :=
  filter (fun s => s <> []) (split CHAR_FORWARD_SLASH p).

(** Walk from a directory entry [cur] at [at_] down the names [rest]. *)
Fixpoint walk (t : gmap (list jsstring) node) (at_ : list jsstring)
    (cur : node) (rest : list jsstring) : errno + node :=
  match rest with
  | [] => inr cur
  | s :: rest' =>
      match cur with
      | Directory =>
          match t !! (at_ ++ [s]) with
          | Some n => walk t (at_ ++ [s]) n rest'
          | None => inl ENOENT
          end
      | _ => inl ENOTDIR
      end
  end.

Definition lookup_path (t : gmap (list jsstring) node) (p : list jsstring) :
    errno + node :=
  walk t root_dir Directory p.

Definition open_errno (k : special) : errno :=
  match k with Symlink => ELOOP | _ => ENXIO end.

(** [mkdir -p]: create the missing directories among [at_ ++ rest], from the
    top down; an existing directory is left as it is. *)
Fixpoint mkdir_p (t : gmap (list jsstring) node) (at_ : list jsstring)
    (rest : list jsstring) : gmap (list jsstring) node * option errno :=
  match rest with
  | [] => (t, None)
  | s :: rest' =>
      let d := at_ ++ [s] in
      match t !! d with
      | None => mkdir_p (<[d := Directory]> t) d rest'
      | Some Directory => mkdir_p t d rest'
      | Some _ => (t, Some match rest' with [] => EEXIST | _ => ENOTDIR end)
      end
  end.

(** Create or truncate the regular file at [p] and store [bytes]. *)
Definition store (t : gmap (list jsstring) node) (p : list jsstring)
    (bytes : list N) : gmap (list jsstring) node * option errno :=
  match rev p with
  | [] => (t, Some EISDIR)
  | _ :: parent_rev =>
      match lookup_path t (rev parent_rev) with
      | inr Directory =>
          match t !! p with
          | None | Some (File _) => (<[p := File bytes]> t, None)
          | Some Directory => (t, Some EISDIR)
          | Some (Special k) => (t, Some (open_errno k))
          end
      | inr _ => (t, Some ENOTDIR)
      | inl e => (t, Some e)
      end
  end.

Fixpoint strip_prefix (d p : list jsstring) : option (list jsstring) :=
  match d with
  | [] => Some p
  | x :: d' =>
      match p with
      | y :: p' => if Js.eqb x y then strip_prefix d' p' else None
      | [] => None
      end
  end.

(** The entries directly inside directory [d], in the map's own order (the
    order of a real listing is the file system's). *)
Definition children (t : gmap (list jsstring) node) (d : list jsstring) :
    list Dirent :=
  omap (fun kv : list jsstring * node =>
          match strip_prefix d (fst kv) with
          | Some [n] => Some {| name := n; entry := snd kv |}
          | _ => None
          end)
       (map_to_list t).

End Fs.

(** ** Running a handler: state, exceptions, recorded calls *)

Module Run.

(** A thrown JavaScript value: an [Error] with its [message], or anything
    else. *)
Inductive exn :=
  | JsError (message : jsstring)
  | Thrown.

Inductive fs_call :=
  | CallReadFile (p : jsstring)
  | CallMkdir (p : jsstring)
  | CallWriteFile (p : jsstring) (data : jsstring)
  | CallReaddir (p : jsstring).

(** The world a handler runs in: the file tree and the [fs] calls made so
    far, latest first. *)
Record world := {
  files : gmap (list jsstring) Fs.node;
  calls : list fs_call
}.

Definition M (A : Type) : Type := world -> world * (exn + A).

Definition ret {A} (a : A) : M A := fun w => (w, inr a).

Definition throw {A} (e : exn) : M A := fun w => (w, inl e).

Definition bind {A B} (m : M A) (k : A -> M B) : M B := fun w =>
  match m w with
  | (w', inr a) => k a w'
  | (w', inl e) => (w', inl e)
  end.

(** [try { body } catch (error) { handler }] *)
Definition try_catch {A} (body : M A) (handler : exn -> M A) : M A := fun w =>
  match body w with
  | (w', inr a) => (w', inr a)
  | (w', inl e) => handler e w'
  end.

Definition of_result {A} (r : exn + A) : M A := fun w => (w, r).

Definition record (c : fs_call) (w : world) : world :=
  {| files := files w; calls := c :: calls w |}.

Definition with_files (t : gmap (list jsstring) Fs.node) (w : world) : world :=
  {| files := t; calls := calls w |}.

End Run.

Export Run.

Notation "'let*' x ':=' m 'in' k" := (Run.bind m (fun x => k))
  (at level 10, x name, m at level 100, k at level 200).

(** ** Node's [fs/promises], on the model *)

Module FsPromises.

Definition nl : jsstring := [10].
Definition quote : jsstring := [39].

Definition code_name (e : Fs.errno) : jsstring :=
  match e with
  | Fs.ENOENT => lit "ENOENT: no such file or directory"
  | Fs.ENOTDIR => lit "ENOTDIR: not a directory"
  | Fs.EISDIR => lit "EISDIR: illegal operation on a directory"
  | Fs.EEXIST => lit "EEXIST: file already exists"
  | Fs.ELOOP => lit "ELOOP: too many symbolic links encountered"
  | Fs.ENXIO => lit "ENXIO: no such device or address"
  end.

(** The [Error] Node raises for a failed system call. *)
Definition fs_error (e : Fs.errno) (syscall p : jsstring) : exn :=
  JsError (code_name e ++ lit ", " ++ syscall ++ lit " " ++ quote ++ p ++ quote).

(** [fs.readFile(p, "utf-8")] *)
Definition readFile (p : jsstring) : M jsstring := fun w =>
  let w := record (CallReadFile p) w in
  match Fs.lookup_path (files w) (Fs.names p) with
  | inr (Fs.File bytes) => (w, inr (Utf8.decode bytes))
  | inr Fs.Directory => (w, inl (JsError (code_name Fs.EISDIR ++ lit ", read")))
  | inr (Fs.Special k) => (w, inl (fs_error (Fs.open_errno k) (lit "open") p))
  | inl e => (w, inl (fs_error e (lit "open") p))
  end.

(** [fs.mkdir(p, { recursive: true })] *)
Definition mkdir_recursive (p : jsstring) : M unit := fun w =>
  let w := record (CallMkdir p) w in
  match Fs.mkdir_p (files w) Fs.root_dir (Fs.names p) with
  | (t, None) => (with_files t w, inr tt)
  | (t, Some e) => (with_files t w, inl (fs_error e (lit "mkdir") p))
  end.

(** [fs.writeFile(p, data, "utf-8")] *)
Definition writeFile (p data : jsstring) : M unit := fun w =>
  let w := record (CallWriteFile p data) w in
  match Fs.store (files w) (Fs.names p) (Utf8.encode data) with
  | (t, None) => (with_files t w, inr tt)
  | (t, Some e) => (with_files t w, inl (fs_error e (lit "open") p))
  end.

(** [fs.readdir(p, { withFileTypes: true })] *)
Definition readdir (p : jsstring) : M (list Fs.Dirent) := fun w =>
  let w := record (CallReaddir p) w in
  match Fs.lookup_path (files w) (Fs.names p) with
  | inr Fs.Directory => (w, inr (Fs.children (files w) (Fs.names p)))
  | inr _ => (w, inl (fs_error Fs.ENOTDIR (lit "scandir") p))
  | inl e => (w, inl (fs_error e (lit "scandir") p))
  end.

End FsPromises.

(** ** The server: [src/index.ts] *)

Module Server.

Import FsPromises.

(** What the module reads from its process at start-up and never changes:
    the environment variable [ALLOWED_DIRECTORY] (the module throws before
    serving anything when it is not set), [process.cwd()] and [__dirname]. *)
Record process := {
  ALLOWED_DIRECTORY : jsstring;
  cwd : jsstring;
  __dirname : jsstring
}.

Record ToolResult := {
  text : jsstring;
  isError : option bool
}.

Section Handlers.

Variable proc : process.

(** Helper function to ensure file is within allowed directory *)
Definition validatePath (filePath : jsstring) : exn + jsstring :=
  let resolvedPath := Path.resolve (cwd proc) filePath in
  let allowedPath := Path.resolve (cwd proc) (ALLOWED_DIRECTORY proc) in
  if negb (startsWith resolvedPath allowedPath) then
    inl (JsError (lit "Access denied: Path " ++ filePath
                    ++ lit " is outside allowed directory"))
  else inr resolvedPath.

(** [error instanceof Error ? error.message : "Unknown error"] *)
Definition errorMessage (error : exn) : jsstring :=
  match error with
  | JsError message => message
  | Thrown => lit "Unknown error"
  end.

Definition read_file (filePath : jsstring) : M ToolResult :=
  try_catch
    (let* validatedPath := of_result (validatePath filePath) in
     let* content := readFile validatedPath in
     ret {| text := lit "File: " ++ filePath ++ nl ++ nl ++ content;
            isError := None |})
    (fun error =>
       ret {| text := lit "Error reading file " ++ filePath ++ lit ": "
                        ++ errorMessage error;
              isError := Some true |}).

Definition write_file (filePath content : jsstring) : M ToolResult :=
  try_catch
    (let* validatedPath := of_result (validatePath filePath) in
     (* Ensure directory exists *)
     let directory := Path.dirname validatedPath in
     let* _ := mkdir_recursive directory in
     (* Write the file *)
     let* _ := writeFile validatedPath content in
     ret {| text := lit "Successfully wrote to file: " ++ filePath;
            isError := None |})
    (fun error =>
       ret {| text := lit "Error writing file " ++ filePath ++ lit ": "
                        ++ errorMessage error;
              isError := Some true |}).

(** One element of [fileList]. *)
Record FileListItem := { item_name : jsstring; item_type : jsstring }.

Definition FOLDER : jsstring := [0xD83D; 0xDCC1].
Definition PAGE : jsstring := [0xD83D; 0xDCC4].

Definition to_item (item : Fs.Dirent) : FileListItem :=
  {| item_name := Fs.name item;
     item_type := if Fs.isDirectory item then lit "directory" else lit "file" |}.

Definition format_item (item : FileListItem) : jsstring :=
  (if Js.eqb (item_type item) (lit "directory") then FOLDER else PAGE)
    ++ lit " " ++ item_name item.

Definition debugInfo (dirPath : jsstring) : jsstring :=
  lit "Debug info:" ++ nl
    ++ lit "- ALLOWED_DIRECTORY: " ++ ALLOWED_DIRECTORY proc ++ nl
    ++ lit "- Requested path: " ++ dirPath ++ nl
    ++ lit "- process.cwd(): " ++ cwd proc ++ nl
    ++ lit "- __dirname: " ++ __dirname proc.

(** The [path] argument is optional and defaults to ["."]. *)
Definition list_files (path : option jsstring) : M ToolResult :=
  let dirPath := match path with Some p => p | None => lit "." end in
  try_catch
    (let debug := debugInfo dirPath in
     let* validatedPath := of_result (validatePath dirPath) in
     let* items := readdir validatedPath in
     let fileList := map to_item items in
     let formattedList := join nl (map format_item fileList) in
     ret {| text := debug ++ nl ++ nl ++ lit "Contents of " ++ dirPath
                      ++ lit " (resolved to " ++ validatedPath ++ lit "):"
                      ++ nl ++ nl ++ formattedList;
            isError := None |})
    (fun error =>
       ret {| text := debugInfo dirPath ++ nl ++ nl
                        ++ lit "Error listing directory " ++ dirPath ++ lit ": "
                        ++ errorMessage error;
              isError := Some true |}).

End Handlers.

End Server.

Export Server.

(** ** The confinement rule as the specification words it *)

Module Spec.

(** A resolved path is inside the resolved root when it equals the root or
    begins with the root followed immediately by a path separator. *)
Definition confined (resolvedRoot resolved : jsstring) : bool :=
  Js.eqb resolved resolvedRoot || startsWith resolved (resolvedRoot ++ Path.sep).

(** The same for a directory given by its names: the names of the root are
    an initial part of its names. *)
Definition dir_inside (root dir : list jsstring) : bool :=
  match Fs.strip_prefix root dir with Some _ => true | None => false end.

End Spec.

(** ** Sample processes and file trees *)

Module Sample.

(** The server started inside the directory it serves. *)
Definition at_root : process :=
  {| ALLOWED_DIRECTORY := lit "/allowed";
     cwd := lit "/allowed";
     __dirname := lit "/srv/app/dist" |}.

(** The server started from its own installation directory. *)
Definition at_app : process :=
  {| ALLOWED_DIRECTORY := lit "/allowed";
     cwd := lit "/srv/app";
     __dirname := lit "/srv/app/dist" |}.

(** The server started in a subdirectory of the directory it serves. *)
Definition at_sub : process :=
  {| ALLOWED_DIRECTORY := lit "/allowed";
     cwd := lit "/allowed/sub";
     __dirname := lit "/srv/app/dist" |}.

(** The server started in a sibling of the directory it serves, whose name
    begins with the name of that directory. *)
Definition at_evil : process :=
  {| ALLOWED_DIRECTORY := lit "/allowed";
     cwd := lit "/allowed-evil";
     __dirname := lit "/srv/app/dist" |}.

(** /allowed/notes.txt, /allowed/sub/, /allowed/sub/inner.txt,
    /allowed/link (a symbolic link), /srv/app/ *)
Definition tree : gmap (list jsstring) Fs.node :=
  <[ [lit "allowed"] := Fs.Directory ]>
  (<[ [lit "allowed"; lit "notes.txt"] := Fs.File (Utf8.encode (lit "remember")) ]>
  (<[ [lit "allowed"; lit "sub"] := Fs.Directory ]>
  (<[ [lit "allowed"; lit "sub"; lit "inner.txt"] := Fs.File [] ]>
  (<[ [lit "allowed"; lit "link"] := Fs.Special Fs.Symlink ]>
  (<[ [lit "srv"] := Fs.Directory ]>
  (<[ [lit "srv"; lit "app"] := Fs.Directory ]> ∅)))))).

Definition start : world := {| files := tree; calls := [] |}.

(** Only the served directory exists. *)
Definition bare : world :=
  {| files := <[ [lit "allowed"] := Fs.Directory ]> ∅; calls := [] |}.

End Sample.

(** ** Loading the module *)

Module Startup.



End Startup.

(** ** More sample processes *)

Module MoreSamples.

(** A server told to serve the whole file system. *)
Definition at_slash : process :=
  {| ALLOWED_DIRECTORY := lit "/";
     cwd := lit "/srv/app";
     __dirname := lit "/srv/app/dist" |}.


End MoreSamples.

(** ** Where the model and a real file system agree *)

Module Scope.

(** Where the file tree of [Fs] and a real one agree.  Node hands the
    operating system the UTF-8 bytes of a path and refuses a path holding a
    NUL; the system refuses a name or a path that is too long (the limits
    taken here are those of Linux).  A name that is well formed, free of NUL
    and short enough reaches the disk as it is, and two such names are the
    same on disk only when they are the same string. *)
Definition NAME_MAX : N := 255.
Definition PATH_MAX : N := 4096.

Definition byte_length (s : jsstring) : N := N.of_nat (length (Utf8.encode s)).

Definition sound_name (s : jsstring) : bool :=
  Utf8.isWellFormed s && forallb (fun u => negb (u =? 0)) s
  && (byte_length s <=? NAME_MAX).

Definition sound_path (p : jsstring) : bool :=
  forallb sound_name (Fs.names p) && (byte_length p <? PATH_MAX).

(** A tree whose entries all sit under sound names: the image of what is on
    the disk, name for name. *)
Definition sound_tree (t : gmap (list jsstring) Fs.node) : bool :=
  forallb (fun kv : list jsstring * Fs.node => forallb sound_name (fst kv))
          (map_to_list t).

(** A tree of directories and regular files under sound names: no symbolic
    link, device, socket or pipe, which the model neither follows nor
    opens. *)
Definition ordinary_entry (n : Fs.node) : bool :=
  match n with Fs.Special _ => false | _ => true end.

Definition ordinary (t : gmap (list jsstring) Fs.node) : bool :=
  sound_tree t
  && forallb (fun kv : list jsstring * Fs.node => ordinary_entry (snd kv))
             (map_to_list t).

End Scope.

(** * Properties *)

(** ** Strings *)

Section StringFacts.

Implicit Types s pre r a b : jsstring.

Lemma startsWith_app s r : startsWith (s ++ r) s = true.
Proof.
  induction s as [|c s IH]; simpl; [done|].
  by rewrite N.eqb_refl.
Qed.

Lemma startsWith_inv s pre :
  startsWith s pre = true -> exists r, s = pre ++ r.
Proof.
  revert s; induction pre as [|c pre IH]; intros s H; simpl in *.
  - by exists s.
  - destruct s as [|d s]; [done|].
    destruct (N.eqb_spec d c) as [->|]; [|done].
    destruct (IH _ H) as [r ->]. by exists r.
Qed.

Lemma startsWith_iff s pre :
  startsWith s pre = true <-> exists r, s = pre ++ r.
Proof.
  split; [apply startsWith_inv|]. intros [r ->]. apply startsWith_app.
Qed.

Lemma startsWith_refl s : startsWith s s = true.
Proof. rewrite <- (app_nil_r s) at 1. apply startsWith_app. Qed.

Lemma startsWith_app_l s pre r :
  startsWith s (pre ++ r) = true -> startsWith s pre = true.
Proof.
  intros [x ->]%startsWith_inv. rewrite <- app_assoc. apply startsWith_app.
Qed.

Lemma includes_here s needle :
  startsWith s needle = true -> includes s needle = true.
Proof. intros H. destruct s; simpl; by rewrite H. Qed.

Lemma includes_skip a s needle :
  includes s needle = true -> includes (a ++ s) needle = true.
Proof.
  intros H. induction a as [|c a IH]; simpl; [done|].
  rewrite IH. by destruct (startsWith _ _).
Qed.

Lemma includes_mid a s b : includes (a ++ s ++ b) s = true.
Proof. apply includes_skip, includes_here, startsWith_app. Qed.

Lemma includes_after4 a1 a2 a3 a4 s b :
  includes (a1 ++ a2 ++ a3 ++ a4 ++ s ++ b) s = true.
Proof.
  replace (a1 ++ a2 ++ a3 ++ a4 ++ s ++ b) with ((a1 ++ a2 ++ a3 ++ a4) ++ s ++ b)
    by (by rewrite <- !app_assoc).
  apply includes_mid.
Qed.

Lemma includes_inv s needle :
  includes s needle = true -> exists a b, s = a ++ needle ++ b.
Proof.
  induction s as [|c s IH]; simpl.
  - destruct (startsWith [] needle) eqn:E; [|done].
    intros _. apply startsWith_inv in E as [r E]. by exists [], r.
  - destruct (startsWith (c :: s) needle) eqn:E.
    + intros _. apply startsWith_inv in E as [r E]. by exists [], r.
    + intros [a [b ->]]%IH. by exists (c :: a), b.
Qed.

Lemma eqb_true a b : Js.eqb a b = true <-> a = b.
Proof. unfold Js.eqb. by rewrite bool_decide_eq_true. Qed.

End StringFacts.

(** ** Paths *)

Example resolve_dotdot :
  Path.resolve (lit "/home/u") (lit "/allowed/../outside/x") = lit "/outside/x".
Proof. reflexivity. Qed.

Example resolve_relative_messy :
  Path.resolve (lit "/home/u") (lit "a/./b//../c/") = lit "/home/u/a/c".
Proof. reflexivity. Qed.

Example resolve_above_root : Path.resolve (lit "/home/u") (lit "../../../..") = lit "/".
Proof. reflexivity. Qed.

Example resolve_empty : Path.resolve (lit "/home/u") [] = lit "/home/u".
Proof. reflexivity. Qed.

Example dirname_nested : Path.dirname (lit "/a/b/c") = lit "/a/b".
Proof. reflexivity. Qed.

Example dirname_top : Path.dirname (lit "/a") = lit "/".
Proof. reflexivity. Qed.

Example dirname_root : Path.dirname (lit "/") = lit "/".
Proof. reflexivity. Qed.

Example dirname_trailing : Path.dirname (lit "a/b/") = lit "a".
Proof. reflexivity. Qed.

Example dirname_double_slash : Path.dirname (lit "//a") = lit "//".
Proof. reflexivity. Qed.

Section PathFacts.

Import Path.

Implicit Types s p : jsstring.
Implicit Types segs : list jsstring.

Lemma split_not_nil c p : split c p <> [].
Proof.
  destruct p as [|d p]; simpl; [done|].
  destruct (N.eqb d c); [done|]. by destruct (split c p).
Qed.

Lemma split_no_sep p : Forall no_sep (split CHAR_FORWARD_SLASH p).
Proof.
  induction p as [|c p IH]; simpl.
  - constructor; [|done]. unfold no_sep. apply not_elem_of_nil.
  - destruct (N.eqb_spec c CHAR_FORWARD_SLASH) as [->|Hc].
    + constructor; [|done]. unfold no_sep. apply not_elem_of_nil.
    + destruct (split CHAR_FORWARD_SLASH p) as [|q qs] eqn:E;
        [by apply split_not_nil in E|].
      inversion IH as [|? ? Hq Hqs]; subst. constructor; [|done].
      unfold no_sep in *. rewrite not_elem_of_cons. done.
Qed.

Lemma split_plain_app s p :
  no_sep s -> split CHAR_FORWARD_SLASH (s ++ CHAR_FORWARD_SLASH :: p)
              = s :: split CHAR_FORWARD_SLASH p.
Proof.
  unfold no_sep. induction s as [|c s IH]; intros Hs; simpl.
  - done.
  - apply not_elem_of_cons in Hs as [Hc Hs].
    destruct (N.eqb_spec c CHAR_FORWARD_SLASH); [done|].
    by rewrite IH.
Qed.

Lemma split_plain s : no_sep s -> split CHAR_FORWARD_SLASH s = [s].
Proof.
  unfold no_sep. induction s as [|c s IH]; intros Hs; simpl; [done|].
  apply not_elem_of_cons in Hs as [Hc Hs].
  destruct (N.eqb_spec c CHAR_FORWARD_SLASH); [done|]. by rewrite IH.
Qed.

Lemma join_cons2 sep s s' segs :
  join sep (s :: s' :: segs) = s ++ sep ++ join sep (s' :: segs).
Proof. done. Qed.

Lemma split_join segs :
  Forall no_sep segs -> segs <> [] ->
  split CHAR_FORWARD_SLASH (join Path.sep segs) = segs.
Proof.
  induction 1 as [|s segs Hs Hsegs IH]; [done|]. intros _.
  destruct segs as [|s' segs].
  - by apply split_plain.
  - rewrite join_cons2. unfold Path.sep at 1. cbn [app].
    rewrite split_plain_app by done. by rewrite IH.
Qed.

Lemma names_render segs : Forall plain segs -> Fs.names (render segs) = segs.
Proof.
  intros H. unfold Fs.names, render.
  change (Path.sep ++ join Path.sep segs)
    with ([] ++ CHAR_FORWARD_SLASH :: join Path.sep segs).
  rewrite split_plain_app by (unfold no_sep; apply not_elem_of_nil).
  rewrite filter_cons_False by (intros ?; done).
  destruct segs as [|s segs]; [done|].
  rewrite split_join; [|eapply Forall_impl; [done|by intros ? []]|done].
  clear -H. induction H as [|x l [Hx _] _ IH]; [done|].
  rewrite filter_cons_True by done. by rewrite IH.
Qed.

Lemma join_snoc segs s :
  segs <> [] -> join Path.sep (segs ++ [s]) = join Path.sep segs ++ Path.sep ++ s.
Proof.
  induction segs as [|x segs IH]; [done|]. intros _.
  destruct segs as [|y segs]; [done|].
  rewrite <- !app_comm_cons, !join_cons2, app_comm_cons.
  rewrite IH by done. by rewrite <- !app_assoc.
Qed.

Lemma skip_slashes_plain r c : c <> CHAR_FORWARD_SLASH ->
  Path.skip_slashes (c :: r) = c :: r.
Proof. intros H. simpl. by destruct (N.eqb_spec c CHAR_FORWARD_SLASH). Qed.

Lemma cut_at_slash_app s r :
  no_sep s -> Path.cut_at_slash (s ++ r) = Path.cut_at_slash r.
Proof.
  unfold no_sep. induction s as [|c s IH]; intros Hs; simpl; [done|].
  apply not_elem_of_cons in Hs as [Hc Hs].
  destruct (N.eqb_spec c CHAR_FORWARD_SLASH); [done|]. by apply IH.
Qed.

Lemma join_plain_nonempty segs : Forall plain segs -> segs <> [] -> join Path.sep segs <> [].
Proof.
  intros H Hne. destruct H as [|s segs [Hs _] _]; [done|].
  destruct s; [done|]. by destruct segs.
Qed.

Lemma dirname_render segs s :
  Forall plain segs -> plain s -> Path.dirname (render (segs ++ [s])) = render segs.
Proof.
  intros Hsegs [Hs Hns]. unfold render. unfold Path.sep at 1. cbn [app].
  unfold Path.dirname. rewrite N.eqb_refl.
  assert (no_sep (rev s)) as Hr.
  { unfold no_sep in *. by rewrite list_elem_of_In, <- in_rev, <- list_elem_of_In. }
  assert (Path.skip_slashes (rev s ++ Path.sep ++ rev (join Path.sep segs))
          = rev s ++ Path.sep ++ rev (join Path.sep segs)
          /\ Path.skip_slashes (rev s) = rev s) as [Hk1 Hk2].
  { destruct (rev s) as [|c r] eqn:E.
    - apply (f_equal (@rev _)) in E. rewrite rev_involutive in E. done.
    - unfold no_sep in Hr. apply not_elem_of_cons in Hr as [Hc _].
      split; cbn [app]; by apply skip_slashes_plain. }
  destruct segs as [|x segs].
  - cbn [app join]. rewrite Hk2.
    rewrite <- (app_nil_r (rev s)), cut_at_slash_app by done. done.
  - rewrite join_snoc by done. rewrite !rev_app_distr.
    change (rev Path.sep) with Path.sep. rewrite <- app_assoc. rewrite Hk1.
    rewrite cut_at_slash_app by done. cbn [app Path.sep Path.cut_at_slash].
    rewrite N.eqb_refl.
    destruct (rev (join Path.sep (x :: segs))) as [|c r] eqn:E.
    + apply (f_equal (@rev _)) in E. rewrite rev_involutive in E.
      by destruct (join_plain_nonempty (x :: segs)).
    + rewrite <- E, rev_involutive. done.
Qed.

Lemma proper_plain s : proper s -> plain s.
Proof. by intros (? & _ & _ & ?). Qed.

Lemma normalize_segs_proper acc segs :
  Forall no_sep segs -> Forall proper acc ->
  Forall proper (Path.normalize_segs false acc segs).
Proof.
  intros Hsegs. revert acc. induction Hsegs as [|s segs Hs _ IH]; intros acc Hacc.
  - simpl. by apply Forall_rev.
  - cbn [Path.normalize_segs].
    destruct (Js.eqb s []) eqn:E1; [by apply IH|].
    destruct (Js.eqb s Path.dot) eqn:E2; [by apply IH|]. cbn [orb].
    destruct (Js.eqb s Path.dotdot) eqn:E3.
    + destruct acc as [|t acc]; [by apply IH|].
      destruct (Js.eqb t Path.dotdot); apply IH; [done|].
      by inversion Hacc.
    + apply IH. constructor; [|done].
      unfold Js.eqb in *. apply bool_decide_eq_false in E1, E2, E3. done.
Qed.

Lemma resolve_render cwd p :
  Path.isAbsolute cwd = true ->
  exists segs, Path.resolve cwd p = render segs /\ Forall proper segs.
Proof.
  intros Hc. unfold Path.resolve, Path.normalizeString, render.
  destruct cwd as [|d cwd]; [done|].
  destruct p as [|c p].
  - rewrite Hc. eexists. split; [done|].
    apply normalize_segs_proper; [apply split_no_sep|done].
  - destruct (Path.isAbsolute (c :: p)).
    + eexists. split; [done|].
      apply normalize_segs_proper; [apply split_no_sep|done].
    + rewrite Hc. eexists. split; [done|].
      apply normalize_segs_proper; [apply split_no_sep|done].
Qed.

Lemma split_join_app rs x :
  Forall no_sep rs -> rs <> [] ->
  split CHAR_FORWARD_SLASH (join Path.sep rs ++ CHAR_FORWARD_SLASH :: x)
  = rs ++ split CHAR_FORWARD_SLASH x.
Proof.
  induction 1 as [|s rs Hs Hrs IH]; [done|]. intros _.
  destruct rs as [|s' rs].
  - cbn [join app]. by rewrite split_plain_app.
  - rewrite join_cons2. unfold Path.sep at 1. rewrite <- !app_assoc. cbn [app].
    rewrite split_plain_app by done. by rewrite IH.
Qed.

Lemma names_render_app rs x :
  Forall plain rs -> Fs.names (render rs ++ Path.sep ++ x) = rs ++ Fs.names x.
Proof.
  intros H. unfold Fs.names, render. rewrite <- app_assoc.
  change (Path.sep ++ join Path.sep rs ++ Path.sep ++ x)
    with ([] ++ CHAR_FORWARD_SLASH :: (join Path.sep rs ++ CHAR_FORWARD_SLASH :: x)).
  rewrite split_plain_app by (unfold no_sep; apply not_elem_of_nil).
  rewrite filter_cons_False by (intros ?; done).
  destruct rs as [|s rs].
  - change (join Path.sep [] ++ CHAR_FORWARD_SLASH :: x)
      with ([] ++ CHAR_FORWARD_SLASH :: x).
    rewrite split_plain_app by (unfold no_sep; apply not_elem_of_nil).
    by rewrite filter_cons_False by (intros ?; done).
  - rewrite split_join_app; [|eapply Forall_impl; [done|by intros ? []]|done].
    rewrite filter_app. f_equal.
    clear -H. induction H as [|y l [Hy _] _ IH]; [done|].
    rewrite filter_cons_True by done. by rewrite IH.
Qed.

(** For normalized absolute paths the worded rule is containment of names. *)
Lemma confined_names rs segs :
  Forall plain rs -> Forall plain segs ->
  Spec.confined (render rs) (render segs) = true ->
  exists rest, segs = rs ++ rest.
Proof.
  intros Hrs Hsegs H. unfold Spec.confined in H.
  apply orb_true_iff in H as [H|H].
  - apply eqb_true in H. apply (f_equal Fs.names) in H.
    rewrite !names_render in H by done. exists []. by rewrite app_nil_r.
  - apply startsWith_inv in H as [x H]. apply (f_equal Fs.names) in H.
    rewrite <- app_assoc, names_render_app, names_render in H by done. eauto.
Qed.

End PathFacts.

(** ** The path guard *)

Section Guard.

Variable proc : process.

Let allowedPath := Path.resolve (cwd proc) (ALLOWED_DIRECTORY proc).

(** What the guard checks: the resolved root is a prefix of the resolved
    candidate, as strings. *)
Lemma validatePath_accepts filePath v :
  validatePath proc filePath = inr v <->
  v = Path.resolve (cwd proc) filePath /\ startsWith v allowedPath = true.
Proof.
  unfold validatePath. fold allowedPath.
  destruct (startsWith (Path.resolve (cwd proc) filePath) allowedPath) eqn:E;
    simpl; split.
  - intros [= <-]. by rewrite E.
  - by intros [-> _].
  - done.
  - intros [-> H]. congruence.
Qed.

Lemma validatePath_rejects filePath :
  startsWith (Path.resolve (cwd proc) filePath) allowedPath = false ->
  validatePath proc filePath =
    inl (JsError (lit "Access denied: Path " ++ filePath
                    ++ lit " is outside allowed directory")).
Proof. unfold validatePath. fold allowedPath. by intros ->. Qed.

Lemma validatePath_rejects_inv filePath e :
  validatePath proc filePath = inl e ->
  startsWith (Path.resolve (cwd proc) filePath) allowedPath = false /\
  e = JsError (lit "Access denied: Path " ++ filePath
                 ++ lit " is outside allowed directory").
Proof.
  unfold validatePath. fold allowedPath.
  destruct (startsWith _ allowedPath); simpl; [done|]. by intros [= <-].
Qed.

(** Whatever the worded rule lets in, the guard lets in. *)
Lemma confined_accepted filePath :
  Spec.confined allowedPath (Path.resolve (cwd proc) filePath) = true ->
  validatePath proc filePath = inr (Path.resolve (cwd proc) filePath).
Proof.
  intros H. apply validatePath_accepts. split; [done|].
  unfold Spec.confined in H. apply orb_true_iff in H as [H|H].
  - apply eqb_true in H. rewrite H. apply startsWith_refl.
  - by apply startsWith_app_l in H.
Qed.

(** X14.  The guard and the worded rule part exactly on the resolutions that
    continue the root with something other than a separator. *)
Lemma accepted_not_confined v :
  startsWith v allowedPath = true /\ Spec.confined allowedPath v = false <->
  exists c rest, v = allowedPath ++ c :: rest /\ c <> CHAR_FORWARD_SLASH.
Proof.
  unfold Spec.confined. split.
  - intros [[r ->]%startsWith_inv H]. apply orb_false_iff in H as [H1 H2].
    destruct r as [|c r].
    + rewrite app_nil_r in H1.
      by rewrite (proj2 (eqb_true allowedPath allowedPath) eq_refl) in H1.
    + exists c, r. split; [done|]. intros ->.
      change (allowedPath ++ CHAR_FORWARD_SLASH :: r)
        with (allowedPath ++ Path.sep ++ r) in H2.
      by rewrite app_assoc, startsWith_app in H2.
  - intros (c & rest & -> & Hc). split; [apply startsWith_app|].
    apply orb_false_iff. split.
    + apply not_true_is_false. intros E%eqb_true.
      rewrite <- (app_nil_r allowedPath) in E at 2.
      by apply app_inv_head in E.
    + apply not_true_is_false. intros [r E]%startsWith_inv.
      rewrite <- app_assoc in E. apply app_inv_head in E.
      injection E as -> _. done.
Qed.

End Guard.

(** C1 (fails on the code).  The guard compares with a bare prefix test, so
    with root /allowed it lets /allowed-evil/x through although that path is
    neither the root nor the root followed by a separator; /allowed/x is
    accepted; in general the guard accepts exactly the candidates whose
    resolution has the resolved root as a string prefix, which includes
    everything the separator rule accepts. *)
Theorem validatePath_prefix_collision :
  validatePath Sample.at_root (lit "/allowed-evil/x") = inr (lit "/allowed-evil/x")
  /\ Spec.confined (lit "/allowed") (lit "/allowed-evil/x") = false
  /\ validatePath Sample.at_root (lit "/allowed/x") = inr (lit "/allowed/x")
  /\ Spec.confined (lit "/allowed") (lit "/allowed/x") = true
  /\ (forall proc filePath,
        let root := Path.resolve (cwd proc) (ALLOWED_DIRECTORY proc) in
        let resolved := Path.resolve (cwd proc) filePath in
        (validatePath proc filePath = inr resolved <->
           startsWith resolved root = true)
        /\ (Spec.confined root resolved = true ->
              validatePath proc filePath = inr resolved)).
Proof.
  repeat split; try reflexivity.
  - intros H. by apply validatePath_accepts in H as [_ H].
  - intros H. by apply validatePath_accepts.
  - apply confined_accepted.
Qed.

(** C2 (fails on the code).  [..] segments are normalized away before the
    comparison, and /allowed/../outside/x is rejected; but a traversal that
    lands on a sibling whose name begins with the root's name, such as
    /allowed/../allowed-evil/x, resolves outside the root and is accepted.
    Every candidate whose resolution lacks the root as a string prefix is
    rejected. *)
Theorem validatePath_traversal :
  validatePath Sample.at_root (lit "/allowed/../allowed-evil/x")
    = inr (lit "/allowed-evil/x")
  /\ Spec.confined (lit "/allowed") (lit "/allowed-evil/x") = false
  /\ validatePath Sample.at_root (lit "/allowed/../outside/x")
       = inl (JsError (lit "Access denied: Path /allowed/../outside/x is outside allowed directory"))
  /\ (forall proc filePath,
        startsWith (Path.resolve (cwd proc) filePath)
                   (Path.resolve (cwd proc) (ALLOWED_DIRECTORY proc)) = false ->
        validatePath proc filePath =
          inl (JsError (lit "Access denied: Path " ++ filePath
                          ++ lit " is outside allowed directory"))).
Proof.
  repeat split; try reflexivity. intros proc filePath. apply validatePath_rejects.
Qed.

(** ** Text survives the encoding *)

Section Encoding.

Import Utf8.

Ltac Zify.zify_post_hook ::= Z.to_euclidean_division_equations.

Ltac split_tests :=
  repeat match goal with
         | |- context [N.eqb ?a ?b] => destruct (N.eqb_spec a b); try lia
         | |- context [N.ltb ?a ?b] => destruct (N.ltb_spec a b); try lia
         | |- context [N.leb ?a ?b] => destruct (N.leb_spec a b); try lia
         end.

Lemma decode_points_cons b0 r0 :
  decode_points (b0 :: r0) =
  ltac:(let t := eval cbn [decode_points] in (decode_points (b0 :: r0)) in exact t).
Proof. reflexivity. Qed.

Lemma decode_one b0 r :
  (b0 <? 0x80) = true -> decode_points (b0 :: r) = b0 :: decode_points r.
Proof. intros H. by rewrite decode_points_cons, H. Qed.

Lemma decode_two b0 b1 r :
  (b0 <? 0x80) = false -> between 0xC2 0xDF b0 = true -> is_cont b1 = true ->
  decode_points (b0 :: b1 :: r)
  = ((b0 - 0xC0) * 64 + (b1 - 0x80)) :: decode_points r.
Proof.
  intros H1 H2 H3. rewrite decode_points_cons, H1, H2. cbv beta iota.
  by rewrite H3.
Qed.

Lemma decode_three b0 b1 b2 r :
  (b0 <? 0x80) = false -> between 0xC2 0xDF b0 = false ->
  between 0xE0 0xEF b0 = true ->
  between (second_lo b0) (second_hi b0) b1 = true -> is_cont b2 = true ->
  decode_points (b0 :: b1 :: b2 :: r)
  = ((b0 - 0xE0) * 4096 + (b1 - 0x80) * 64 + (b2 - 0x80)) :: decode_points r.
Proof.
  intros H1 H2 H3 H4 H5. rewrite decode_points_cons, H1, H2, H3. cbv beta iota.
  rewrite H4. cbv beta iota. by rewrite H5.
Qed.

Lemma decode_four b0 b1 b2 b3 r :
  (b0 <? 0x80) = false -> between 0xC2 0xDF b0 = false ->
  between 0xE0 0xEF b0 = false -> between 0xF0 0xF4 b0 = true ->
  between (second_lo b0) (second_hi b0) b1 = true ->
  is_cont b2 = true -> is_cont b3 = true ->
  decode_points (b0 :: b1 :: b2 :: b3 :: r)
  = ((b0 - 0xF0) * 262144 + (b1 - 0x80) * 4096 + (b2 - 0x80) * 64 + (b3 - 0x80))
      :: decode_points r.
Proof.
  intros H1 H2 H3 H4 H5 H6 H7.
  rewrite decode_points_cons, H1, H2, H3, H4. cbv beta iota.
  rewrite H5. cbv beta iota. rewrite H6. cbv beta iota. by rewrite H7.
Qed.

Ltac test_by_lia :=
  unfold is_cont, between, second_lo, second_hi; split_tests; reflexivity.

Lemma decode_encode_point cp rest :
  is_scalar cp ->
  decode_points (encode_point cp ++ rest) = cp :: decode_points rest.
Proof.
  intros Hcp. unfold is_scalar in Hcp. unfold encode_point.
  destruct (N.ltb_spec cp 0x80);
    [|destruct (N.ltb_spec cp 0x800); [|destruct (N.ltb_spec cp 0x10000)]];
    cbn [app].
  - apply decode_one. by apply N.ltb_lt.
  - rewrite decode_two by test_by_lia. f_equal. lia.
  - rewrite decode_three by test_by_lia. f_equal. lia.
  - rewrite decode_four by test_by_lia. f_equal. lia.
Qed.

Lemma decode_encode_points cps :
  Forall is_scalar cps -> decode_points (flat_map encode_point cps) = cps.
Proof.
  induction 1 as [|cp cps Hcp _ IH]; [done|].
  cbn [flat_map]. rewrite decode_encode_point by done. by rewrite IH.
Qed.

Lemma units_of_code_points_aux n s :
  (length s <= n)%nat -> isWellFormed s = true ->
  flat_map units_of_point (code_points s) = s /\ Forall is_scalar (code_points s).
Proof.
  revert s; induction n as [|n IH]; intros s Hlen Hwf.
  - destruct s; [by split|simpl in Hlen; lia].
  - destruct s as [|u s]; [by split|].
    cbn [isWellFormed code_points] in *. unfold is_high, is_low in *.
    destruct ((0xD800 <=? u) && (u <=? 0xDBFF)) eqn:Hh.
    + destruct s as [|v s]; [done|].
      apply andb_prop in Hwf as [Hl Hwf]. rewrite Hl.
      apply andb_prop in Hh as [Hh1 Hh2], Hl as [Hl1 Hl2].
      apply N.leb_le in Hh1, Hh2, Hl1, Hl2.
      destruct (IH s) as [E F]; [simpl in Hlen; lia|done|].
      cbn [flat_map]. rewrite E. split.
      * unfold units_of_point.
        destruct (N.ltb_spec (0x10000 + (u - 0xD800) * 0x400 + (v - 0xDC00)) 0x10000);
          [lia|]. cbn [app]. f_equal; [lia|f_equal; lia].
      * constructor; [|done]. unfold is_scalar. lia.
    + destruct ((0xDC00 <=? u) && (u <=? 0xDFFF)) eqn:Hl; [done|].
      apply andb_prop in Hwf as [Hu Hwf]. apply N.ltb_lt in Hu.
      destruct (IH s) as [E F]; [simpl in Hlen; lia|done|].
      cbn [flat_map]. rewrite E. split.
      * unfold units_of_point. by destruct (N.ltb_spec u 0x10000); [|lia].
      * constructor; [|done]. unfold is_scalar.
        apply andb_false_iff in Hh, Hl.
        rewrite !N.leb_gt in Hh, Hl. lia.
Qed.

(** A well-formed string written as UTF-8 and read back is the same
    string. *)
Lemma decode_encode s : isWellFormed s = true -> decode (encode s) = s.
Proof.
  intros Hwf. unfold decode, encode.
  destruct (units_of_code_points_aux (length s) s) as [E F]; [done|done|].
  by rewrite decode_encode_points.
Qed.

(** An unpaired surrogate does not survive. *)
Lemma decode_encode_lone_surrogate : decode (encode [0xD800]) = [0xFFFD].
Proof. reflexivity. Qed.

End Encoding.

(** ** The file tree *)

Section Tree.

Implicit Types t : gmap (list jsstring) Fs.node.
Implicit Types a r k : list jsstring.

Lemma walk_app t a cur r1 r2 :
  Fs.walk t a cur (r1 ++ r2) =
  match Fs.walk t a cur r1 with
  | inr n => Fs.walk t (a ++ r1) n r2
  | inl e => inl e
  end.
Proof.
  revert a cur; induction r1 as [|s r1 IH]; intros a cur; simpl.
  - by rewrite app_nil_r.
  - destruct cur; try done.
    destruct (t !! (a ++ [s])); [|done].
    rewrite IH. by rewrite <- app_assoc.
Qed.

(** A walk never consults a key longer than the path walked. *)
Lemma walk_insert_below t a cur r n x v :
  Fs.walk (<[a ++ r ++ n :: x := v]> t) a cur r = Fs.walk t a cur r.
Proof.
  revert a cur; induction r as [|s r IH]; intros a cur; simpl; [done|].
  destruct cur; try done.
  rewrite lookup_insert_ne.
  - destruct (t !! (a ++ [s])) as [m|]; [|done].
    specialize (IH (a ++ [s]) m). rewrite <- app_assoc in IH. apply IH.
  - intros E. apply (f_equal length) in E.
    rewrite !length_app in E. simpl in E. rewrite length_app in E. simpl in E. lia.
Qed.

(** [mkdir -p] only adds entries. *)
Lemma mkdir_p_keeps t a r k n :
  t !! k = Some n -> fst (Fs.mkdir_p t a r) !! k = Some n.
Proof.
  revert t a; induction r as [|s r IH]; intros t a Hk; simpl; [done|].
  destruct (t !! (a ++ [s])) as [[| |]|] eqn:E; simpl; auto.
  apply IH. rewrite lookup_insert_ne; [done|]. intros <-. congruence.
Qed.

(** Running [mkdir -p] again on its own result changes nothing and ends the
    same way. *)
Lemma mkdir_p_again t a r t' e :
  Fs.mkdir_p t a r = (t', e) -> Fs.mkdir_p t' a r = (t', e).
Proof.
  revert t a; induction r as [|s r IH]; intros t a H; simpl in *.
  - by injection H as <- <-.
  - destruct (t !! (a ++ [s])) as [[| |]|] eqn:E.
    + injection H as <- <-. by rewrite E.
    + pose proof (mkdir_p_keeps t (a ++ [s]) r _ _ E) as K.
      rewrite H in K. simpl in K. rewrite K. by apply IH in H.
    + injection H as <- <-. by rewrite E.
    + pose proof (mkdir_p_keeps (<[a ++ [s] := Fs.Directory]> t) (a ++ [s]) r
                    (a ++ [s]) Fs.Directory) as K.
      rewrite lookup_insert_eq in K. specialize (K eq_refl).
      rewrite H in K. simpl in K. rewrite K. by apply IH in H.
Qed.

(** Where [mkdir -p] has nothing to do, it has nothing to do in any tree
    with the same directories. *)
Lemma mkdir_p_settled t t2 a r :
  Fs.mkdir_p t a r = (t, None) ->
  (forall k, t !! k = Some Fs.Directory -> t2 !! k = Some Fs.Directory) ->
  Fs.mkdir_p t2 a r = (t2, None).
Proof.
  intros H Hd. revert a H; induction r as [|s r IH]; intros a H; simpl in *.
  - done.
  - destruct (t !! (a ++ [s])) as [[| |]|] eqn:E; try done.
    + rewrite (Hd _ E). by apply IH.
    + pose proof (mkdir_p_keeps (<[a ++ [s] := Fs.Directory]> t) (a ++ [s]) r
                    (a ++ [s]) Fs.Directory) as K.
      rewrite lookup_insert_eq in K. specialize (K eq_refl).
      rewrite H in K. simpl in K. congruence.
Qed.

Lemma rev_cons_inv {A} (p : list A) n q : rev p = n :: q -> p = rev q ++ [n].
Proof. intros H. rewrite <- (rev_involutive p), H. done. Qed.

(** A successful [store] puts a regular file with exactly the given bytes at
    the path, whatever was there. *)
Lemma store_ok t p bytes t' :
  Fs.store t p bytes = (t', None) ->
  t' = <[p := Fs.File bytes]> t
  /\ (t !! p = None \/ exists old, t !! p = Some (Fs.File old))
  /\ Fs.lookup_path t' p = inr (Fs.File bytes).
Proof.
  unfold Fs.store. destruct (rev p) as [|n q] eqn:Ep; [done|].
  apply rev_cons_inv in Ep as ->.
  destruct (Fs.lookup_path t (rev q)) as [e|[| |]] eqn:El; try done.
  assert (Fs.lookup_path (<[rev q ++ [n] := Fs.File bytes]> t) (rev q ++ [n])
          = inr (Fs.File bytes)) as Hl.
  { unfold Fs.lookup_path, Fs.root_dir in *. rewrite walk_app.
    pose proof (walk_insert_below t [] Fs.Directory (rev q) n [] (Fs.File bytes)) as W.
    simpl in W. rewrite W, El. simpl. by rewrite lookup_insert_eq. }
  destruct (t !! (rev q ++ [n])) as [[| |]|] eqn:E; try done; intros [= <-].
  - split; [done|]. split; [right; eauto|done].
  - split; [done|]. split; [by left|done].
Qed.

Lemma store_failed t p bytes t' e :
  Fs.store t p bytes = (t', Some e) -> t' = t.
Proof.
  unfold Fs.store. destruct (rev p) as [|n q]; [by intros [= <-]|].
  destruct (Fs.lookup_path t (rev q)) as [?|[| |]]; try by intros [= <-].
  destruct (t !! p) as [[| |]|]; by intros [= <-].
Qed.

(** Storing the same bytes again leaves the tree as it is. *)
Lemma store_again t p bytes t' e :
  Fs.store t p bytes = (t', e) -> Fs.store t' p bytes = (t', e).
Proof.
  destruct e as [e|].
  - intros H. by pose proof (store_failed _ _ _ _ _ H) as ->.
  - intros H. destruct (store_ok _ _ _ _ H) as (-> & _ & _).
    revert H. unfold Fs.store. destruct (rev p) as [|n q] eqn:Ep; [done|].
    apply rev_cons_inv in Ep as ->.
    unfold Fs.lookup_path, Fs.root_dir.
    pose proof (walk_insert_below t [] Fs.Directory (rev q) n [] (Fs.File bytes)) as W.
    simpl in W. rewrite W.
    destruct (Fs.walk t [] Fs.Directory (rev q)) as [?|[| |]]; try done.
    rewrite lookup_insert_eq, insert_insert_eq.
    by destruct (t !! (rev q ++ [n])) as [[| |]|].
Qed.

(** After a successful [mkdir -p] every directory on the way exists. *)
Lemma mkdir_p_ok t a r t' :
  Fs.mkdir_p t a r = (t', None) ->
  forall r1 x r2, r = r1 ++ x :: r2 -> t' !! (a ++ r1 ++ [x]) = Some Fs.Directory.
Proof.
  revert t a; induction r as [|s r IH]; intros t a H r1 x r2 Hr.
  - by destruct r1.
  - simpl in H. destruct r1 as [|y r1]; simplify_eq/=.
    + destruct (t !! (a ++ [x])) as [[| |]|] eqn:E; try done.
      * pose proof (mkdir_p_keeps t (a ++ [x]) r2 _ _ E) as K. by rewrite H in K.
      * pose proof (mkdir_p_keeps (<[a ++ [x] := Fs.Directory]> t) (a ++ [x]) r2
                      (a ++ [x]) Fs.Directory) as K.
        rewrite lookup_insert_eq, H in K. by apply K.
    + replace (a ++ y :: r1 ++ [x]) with ((a ++ [y]) ++ r1 ++ [x])
        by (by rewrite <- app_assoc).
      destruct (t !! (a ++ [y])) as [[| |]|] eqn:E; try done; by eapply IH.
Qed.

(** [mkdir -p] touches nothing but the missing directories on the way. *)
Lemma mkdir_p_changes t a r t' e key :
  Fs.mkdir_p t a r = (t', e) -> t' !! key <> t !! key ->
  t !! key = None /\ t' !! key = Some Fs.Directory
  /\ exists r1 x r2, r = r1 ++ x :: r2 /\ key = a ++ r1 ++ [x].
Proof.
  revert t a; induction r as [|s r IH]; intros t a H Hne; simpl in H.
  - by simplify_eq.
  - destruct (t !! (a ++ [s])) as [[| |]|] eqn:E; try by simplify_eq.
    + destruct (IH _ _ H Hne) as (? & ? & r1 & x & r2 & -> & ->).
      split; [done|]. split; [done|]. exists (s :: r1), x, r2.
      split; [done|]. by rewrite <- app_assoc.
    + destruct (decide (key = a ++ [s])) as [->|Hk].
      * split; [done|]. split.
        -- pose proof (mkdir_p_keeps (<[a ++ [s] := Fs.Directory]> t) (a ++ [s]) r
                         (a ++ [s]) Fs.Directory) as K.
           rewrite lookup_insert_eq, H in K. by apply K.
        -- by exists [], s, r.
      * assert (t' !! key <> <[a ++ [s] := Fs.Directory]> t !! key) as Hne'
          by (by rewrite lookup_insert_ne).
        destruct (IH _ _ H Hne') as (Hn & ? & r1 & x & r2 & -> & ->).
        rewrite lookup_insert_ne in Hn by done.
        split; [done|]. split; [done|]. exists (s :: r1), x, r2.
        split; [done|]. by rewrite <- app_assoc.
Qed.

(** [mkdir -p] succeeds when nothing but directories stands on the way. *)
Lemma mkdir_p_succeeds t a r :
  (forall r1 x r2, r = r1 ++ x :: r2 ->
     t !! (a ++ r1 ++ [x]) = None \/ t !! (a ++ r1 ++ [x]) = Some Fs.Directory) ->
  exists t', Fs.mkdir_p t a r = (t', None).
Proof.
  revert t a; induction r as [|s r IH]; intros t a H; simpl; [by eexists|].
  assert (forall t2, (forall k, k <> a ++ [s] -> t2 !! k = t !! k) ->
          exists t', Fs.mkdir_p t2 (a ++ [s]) r = (t', None)) as Hrec.
  { intros t2 H2. apply IH. intros r1 x r2 ->.
    rewrite H2.
    - specialize (H (s :: r1) x r2 eq_refl). by rewrite <- app_assoc.
    - intros E. apply (f_equal length) in E. rewrite !length_app in E.
      simpl in E. lia. }
  destruct (H [] s r eq_refl) as [E|E]; simpl in E; rewrite E.
  - apply Hrec. intros k Hk. by rewrite lookup_insert_ne.
  - by apply Hrec.
Qed.

Lemma walk_dirs t a r :
  (forall r1 x r2, r = r1 ++ x :: r2 -> t !! (a ++ r1 ++ [x]) = Some Fs.Directory) ->
  Fs.walk t a Fs.Directory r = inr Fs.Directory.
Proof.
  revert a; induction r as [|s r IH]; intros a H; simpl; [done|].
  pose proof (H [] s r eq_refl) as E. simpl in E. rewrite E.
  apply IH. intros r1 x r2 ->.
  specialize (H (s :: r1) x r2 eq_refl). by rewrite <- app_assoc.
Qed.

Lemma walk_from_dir t a m x r n :
  Fs.walk t a m (x :: r) = inr n -> m = Fs.Directory.
Proof. simpl. by destruct m. Qed.

Lemma walk_dirs_inv t a r n :
  Fs.walk t a Fs.Directory r = inr n ->
  forall r1 x r2, r = r1 ++ x :: r2 -> r2 <> [] ->
                  t !! (a ++ r1 ++ [x]) = Some Fs.Directory.
Proof.
  revert a; induction r as [|s r IH]; intros a H r1 x r2 Hr Hr2.
  - by destruct r1.
  - cbn [Fs.walk] in H. destruct (t !! (a ++ [s])) as [m|] eqn:E; [|done].
    destruct r1 as [|y r1]; injection Hr as -> ->.
    + destruct r2 as [|z r2]; [done|].
      apply walk_from_dir in H as ->. done.
    + assert (m = Fs.Directory) as ->.
      { destruct r1; by apply walk_from_dir in H. }
      replace (a ++ (y :: r1) ++ [x]) with ((a ++ [y]) ++ r1 ++ [x])
        by (by rewrite <- app_assoc).
      by eapply IH.
Qed.

Lemma lookup_path_prefixes t rs :
  Fs.lookup_path t rs = inr Fs.Directory ->
  forall r1 x r2, rs = r1 ++ x :: r2 -> t !! (r1 ++ [x]) = Some Fs.Directory.
Proof.
  unfold Fs.lookup_path, Fs.root_dir. intros H r1 x r2 ->.
  destruct r2 as [|y r2].
  - rewrite walk_app in H.
    destruct (Fs.walk t [] Fs.Directory r1) as [|m]; [done|]. simpl in H.
    destruct m; try done. by destruct (t !! (r1 ++ [x])) as [?|]; simplify_eq.
  - by apply (walk_dirs_inv t [] _ _ H r1 x (y :: r2)).
Qed.

Lemma strip_prefix_inv d p r : Fs.strip_prefix d p = Some r -> p = d ++ r.
Proof.
  revert p; induction d as [|x d IH]; intros p; simpl.
  - by intros [= ->].
  - destruct p as [|y p]; [done|].
    destruct (Js.eqb x y) eqn:E; [|done].
    apply eqb_true in E as ->. intros H. by rewrite (IH _ H).
Qed.

Lemma strip_prefix_app d r : Fs.strip_prefix d (d ++ r) = Some r.
Proof.
  induction d as [|x d IH]; simpl; [done|].
  by rewrite (proj2 (eqb_true x x) eq_refl).
Qed.

Lemma strip_prefix_refl d : Fs.strip_prefix d d = Some [].
Proof.
  induction d as [|x d IH]; simpl; [done|].
  by rewrite (proj2 (eqb_true x x) eq_refl).
Qed.

Lemma list_last_cases {A} (l : list A) : l = [] \/ exists p n, l = p ++ [n].
Proof. destruct l as [|n p _] using rev_ind; eauto. Qed.

End Tree.

(** ** The handlers, step by step *)

Section Steps.

Import FsPromises.

Variable proc : process.

(** [read_file]: the guard, then one [readFile]. *)
Lemma read_file_run filePath w :
  read_file proc filePath w =
  match validatePath proc filePath with
  | inl e =>
      (w, inr {| text := lit "Error reading file " ++ filePath ++ lit ": "
                           ++ errorMessage e;
                 isError := Some true |})
  | inr v =>
      match readFile v w with
      | (w', inr content) =>
          (w', inr {| text := lit "File: " ++ filePath ++ nl ++ nl ++ content;
                      isError := None |})
      | (w', inl e) =>
          (w', inr {| text := lit "Error reading file " ++ filePath ++ lit ": "
                                ++ errorMessage e;
                      isError := Some true |})
      end
  end.
Proof.
  unfold read_file, try_catch, Run.bind, of_result, ret.
  destruct (validatePath proc filePath) as [e|v]; [done|].
  by destruct (readFile v w) as [w' [e|content]].
Qed.

(** [write_file]: the guard, then [mkdir] on the parent, then [writeFile]. *)
Lemma write_file_run filePath content w :
  write_file proc filePath content w =
  match validatePath proc filePath with
  | inl e =>
      (w, inr {| text := lit "Error writing file " ++ filePath ++ lit ": "
                           ++ errorMessage e;
                 isError := Some true |})
  | inr v =>
      let w1 := record (CallMkdir (Path.dirname v)) w in
      match Fs.mkdir_p (files w) Fs.root_dir (Fs.names (Path.dirname v)) with
      | (t, Some e) =>
          (with_files t w1,
           inr {| text := lit "Error writing file " ++ filePath ++ lit ": "
                            ++ errorMessage (fs_error e (lit "mkdir") (Path.dirname v));
                  isError := Some true |})
      | (t, None) =>
          let w2 := record (CallWriteFile v content) (with_files t w1) in
          match Fs.store t (Fs.names v) (Utf8.encode content) with
          | (t', Some e) =>
              (with_files t' w2,
               inr {| text := lit "Error writing file " ++ filePath ++ lit ": "
                                ++ errorMessage (fs_error e (lit "open") v);
                      isError := Some true |})
          | (t', None) =>
              (with_files t' w2,
               inr {| text := lit "Successfully wrote to file: " ++ filePath;
                      isError := None |})
          end
      end
  end.
Proof.
  unfold write_file, try_catch, Run.bind, of_result, ret, mkdir_recursive, writeFile.
  destruct (validatePath proc filePath) as [e|v]; [done|].
  cbn [files record with_files].
  destruct (Fs.mkdir_p (files w) Fs.root_dir (Fs.names (Path.dirname v)))
    as [t [e|]]; [done|].
  cbn [files record with_files].
  by destruct (Fs.store t (Fs.names v) (Utf8.encode content)) as [t' [e|]].
Qed.

(** [list_files]: the guard, then one [readdir]. *)
Lemma list_files_run path w :
  let dirPath := match path with Some p => p | None => lit "." end in
  list_files proc path w =
  match validatePath proc dirPath with
  | inl e =>
      (w, inr {| text := debugInfo proc dirPath ++ nl ++ nl
                           ++ lit "Error listing directory " ++ dirPath ++ lit ": "
                           ++ errorMessage e;
                 isError := Some true |})
  | inr v =>
      match readdir v w with
      | (w', inr items) =>
          (w', inr {| text := debugInfo proc dirPath ++ nl ++ nl
                                ++ lit "Contents of " ++ dirPath
                                ++ lit " (resolved to " ++ v ++ lit "):"
                                ++ nl ++ nl
                                ++ join nl (map format_item (map to_item items));
                      isError := None |})
      | (w', inl e) =>
          (w', inr {| text := debugInfo proc dirPath ++ nl ++ nl
                                ++ lit "Error listing directory " ++ dirPath
                                ++ lit ": " ++ errorMessage e;
                      isError := Some true |})
      end
  end.
Proof.
  unfold list_files, try_catch, Run.bind, of_result, ret.
  destruct (validatePath proc _) as [e|v]; [done|].
  by destruct (readdir v w) as [w' [e|items]].
Qed.

End Steps.

(** ** Writing *)

(** What a successful [write_file] has done. *)
Lemma write_file_ok_inv proc w filePath content w1 res :
  write_file proc filePath content w = (w1, inr res) ->
  isError res = None ->
  let v := Path.resolve (cwd proc) filePath in
  validatePath proc filePath = inr v
  /\ (exists t,
        Fs.mkdir_p (files w) Fs.root_dir (Fs.names (Path.dirname v)) = (t, None)
        /\ Fs.store t (Fs.names v) (Utf8.encode content) = (files w1, None))
  /\ calls w1 = CallWriteFile v content :: CallMkdir (Path.dirname v) :: calls w
  /\ Fs.lookup_path (files w1) (Fs.names v) = inr (Fs.File (Utf8.encode content)).
Proof.
  intros Hw Hok. cbv zeta. rewrite write_file_run in Hw.
  destruct (validatePath proc filePath) as [e|v] eqn:Ev.
  { injection Hw as _ <-. done. }
  apply validatePath_accepts in Ev as Hv. destruct Hv as [<- _].
  split; [done|]. cbv zeta in Hw.
  destruct (Fs.mkdir_p (files w) Fs.root_dir (Fs.names (Path.dirname v)))
    as [t [e|]] eqn:Em.
  { injection Hw as _ <-. done. }
  destruct (Fs.store t (Fs.names v) (Utf8.encode content)) as [t' [e|]] eqn:Es.
  { injection Hw as _ <-. done. }
  injection Hw as <- _. cbn [files calls with_files record].
  split; [by exists t|]. split; [done|].
  by destruct (store_ok _ _ _ _ Es) as (_ & _ & Hl).
Qed.




(** Overwriting /allowed/notes.txt, twice. *)
Example overwrite_existing_file :
  let once := fst (write_file Sample.at_root (lit "notes.txt") (lit "new")
                     Sample.start) in
  let twice := fst (write_file Sample.at_root (lit "notes.txt") (lit "new") once) in
  files Sample.start !! [lit "allowed"; lit "notes.txt"]
    = Some (Fs.File (Utf8.encode (lit "remember")))
  /\ files once !! [lit "allowed"; lit "notes.txt"]
      = Some (Fs.File (Utf8.encode (lit "new")))
  /\ files twice = files once.
Proof. cbv zeta. repeat split; vm_compute; reflexivity. Qed.

(** C7 (amended).  After a successful [write_file(p, c)] with [c] free of
    unpaired surrogates, [read_file(p)] makes one [readFile] call and returns
    an unflagged result whose text is the label [File: p], an empty line, and
    [c] unchanged. *)
Theorem write_then_read proc w filePath content w1 res :
  write_file proc filePath content w = (w1, inr res) ->
  isError res = None ->
  Utf8.isWellFormed content = true ->
  read_file proc filePath w1 =
    (record (CallReadFile (Path.resolve (cwd proc) filePath)) w1,
     inr {| text := lit "File: " ++ filePath ++ FsPromises.nl ++ FsPromises.nl
                      ++ content;
            isError := None |}).
Proof.
  intros Hw Hok Hwf.
  destruct (write_file_ok_inv _ _ _ _ _ _ Hw Hok) as (Hv & _ & _ & Hl).
  rewrite read_file_run, Hv.
  unfold FsPromises.readFile. cbn [files record]. rewrite Hl.
  by rewrite decode_encode.
Qed.

(** C7 (as worded, fails).  A content string holding an unpaired surrogate
    is accepted and written, and reading the file back returns U+FFFD in its
    place: the text returned does not contain the content written. *)
Lemma write_then_read_lone_surrogate :
  let written := write_file Sample.at_root (lit "f.txt") [0xD800] Sample.bare in
  let read := read_file Sample.at_root (lit "f.txt") (fst written) in
  snd written
    = inr {| text := lit "Successfully wrote to file: f.txt"; isError := None |}
  /\ snd read
       = inr {| text := lit "File: f.txt" ++ [10; 10] ++ [0xFFFD]; isError := None |}
  /\ forall res, snd read = inr res -> includes (text res) [0xD800] = false.
Proof.
  cbv zeta. split; [|split]; [vm_compute; reflexivity ..|].
  intros res. vm_compute. by intros [= <-].
Qed.

(** The round trip of C7 on a tree where only /allowed exists. *)
Lemma write_then_read_witness :
  let w1 := fst (write_file Sample.at_root (lit "sub/dir/file.txt") (lit "hello")
                   Sample.bare) in
  Utf8.isWellFormed (lit "hello") = true
  /\ read_file Sample.at_root (lit "sub/dir/file.txt") w1 =
       (record (CallReadFile (lit "/allowed/sub/dir/file.txt")) w1,
        inr {| text := lit "File: sub/dir/file.txt" ++ [10; 10] ++ lit "hello";
               isError := None |}).
Proof.
  cbv zeta. split; [reflexivity|].
  apply (write_then_read Sample.at_root Sample.bare (lit "sub/dir/file.txt")
           (lit "hello") _
           {| text := lit "Successfully wrote to file: sub/dir/file.txt";
              isError := None |}).
  - vm_compute. reflexivity.
  - reflexivity.
  - reflexivity.
Defined.

Section WriteGeneral.

Import Path.

(** A validated path of a process with an absolute working directory is
    normalized and absolute, and [path.dirname] gives its parent. *)
Lemma validated_names proc filePath v :
  Path.isAbsolute (cwd proc) = true ->
  validatePath proc filePath = inr v ->
  exists segs,
    v = render segs /\ Forall proper segs /\ Fs.names v = segs
    /\ forall parent n, segs = parent ++ [n] ->
         Path.dirname v = render parent /\ Fs.names (Path.dirname v) = parent.
Proof.
  intros Hc [-> _]%validatePath_accepts.
  destruct (resolve_render (cwd proc) filePath Hc) as (segs & -> & Hsegs).
  assert (Forall plain segs) as Hp
    by (eapply Forall_impl; [done|apply proper_plain]).
  exists segs. split; [done|]. split; [done|].
  split; [by apply names_render|].
  intros parent n ->. apply Forall_app in Hp as [Hparent Hn].
  rewrite dirname_render; [|done|by inversion Hn].
  split; [done|]. by apply names_render.
Qed.

(** X12.  The general form of the first part of C5: for a tree under sound
    names and a path the system takes as it is, with nothing but directories
    on the way and no directory or special entry at the target,
    [write_file] calls [mkdir] on the parent and then [writeFile], succeeds,
    leaves every directory of the parent chain in place, stores the content,
    and changes nothing else in the tree but the missing directories of that
    chain. *)
Lemma write_file_parent_chain proc w filePath content v parent n :
  Path.isAbsolute (cwd proc) = true ->
  validatePath proc filePath = inr v ->
  Scope.sound_tree (files w) = true ->
  Scope.sound_path v = true ->
  Fs.names v = parent ++ [n] ->
  (forall r1 x r2, parent = r1 ++ x :: r2 ->
     files w !! (r1 ++ [x]) = None \/ files w !! (r1 ++ [x]) = Some Fs.Directory) ->
  (files w !! (parent ++ [n]) = None
   \/ exists old, files w !! (parent ++ [n]) = Some (Fs.File old)) ->
  exists w1,
    write_file proc filePath content w
      = (w1, inr {| text := lit "Successfully wrote to file: " ++ filePath;
                    isError := None |})
    /\ calls w1 = CallWriteFile v content :: CallMkdir (render parent) :: calls w
    /\ (forall r1 x r2, parent = r1 ++ x :: r2 ->
          files w1 !! (r1 ++ [x]) = Some Fs.Directory)
    /\ files w1 !! (parent ++ [n]) = Some (Fs.File (Utf8.encode content))
    /\ (forall key, files w1 !! key <> files w !! key ->
          key = parent ++ [n]
          \/ (files w !! key = None /\ files w1 !! key = Some Fs.Directory
              /\ exists r1 x r2, parent = r1 ++ x :: r2 /\ key = r1 ++ [x])).
Proof.
  intros Hc Hv _ _ Hn Hway Htarget.
  destruct (validated_names _ _ _ Hc Hv) as (segs & _ & _ & Hsegs & Hdir).
  rewrite Hn in Hsegs. destruct (Hdir parent n) as [Hd Hnd]; [done|].
  destruct (mkdir_p_succeeds (files w) Fs.root_dir parent Hway) as [t Hm].
  pose proof (mkdir_p_ok _ _ _ _ Hm) as Hdirs. simpl in Hdirs.
  assert (t !! (parent ++ [n]) = files w !! (parent ++ [n])) as Hsame.
  { destruct (decide (t !! (parent ++ [n]) = files w !! (parent ++ [n])))
      as [|Hne]; [done|].
    destruct (mkdir_p_changes _ _ _ _ _ _ Hm Hne) as (_ & _ & r1 & x & r2 & -> & E).
    simpl in E. apply (f_equal length) in E. rewrite !length_app in E.
    simpl in E. lia. }
  assert (Fs.store t (parent ++ [n]) (Utf8.encode content)
          = (<[parent ++ [n] := Fs.File (Utf8.encode content)]> t, None)) as Hs.
  { unfold Fs.store. rewrite rev_app_distr. cbn [rev app]. rewrite rev_involutive.
    unfold Fs.lookup_path. rewrite (walk_dirs t Fs.root_dir parent) by done.
    rewrite Hsame. by destruct Htarget as [->|[old ->]]. }
  rewrite write_file_run, Hv. cbv zeta. rewrite Hnd, Hd, Hm, Hn, Hs.
  eexists. split; [done|]. cbn [files calls with_files record].
  split; [done|]. split; [|split].
  - intros r1 x r2 ->. rewrite lookup_insert_ne; [by eapply Hdirs|].
    intros E. apply (f_equal length) in E. rewrite !length_app in E.
    simpl in E. lia.
  - by rewrite lookup_insert_eq.
  - intros key Hne. destruct (decide (key = parent ++ [n])) as [|Hk]; [by left|].
    right. rewrite lookup_insert_ne in Hne |- * by done.
    destruct (mkdir_p_changes _ _ _ _ _ _ Hm Hne) as (? & ? & r1 & x & r2 & -> & ->).
    split; [done|]. split; [done|]. by exists r1, x, r2.
Qed.

(** X13.  The general form of the second part of C5, under the worded rule: when
    the resolved path is the root or continues it after a separator, and the
    root exists as a directory, every directory [write_file] creates is
    inside the root. *)
Lemma created_directories_inside proc w filePath content v w1 res key :
  Path.isAbsolute (cwd proc) = true ->
  let root := Path.resolve (cwd proc) (ALLOWED_DIRECTORY proc) in
  validatePath proc filePath = inr v ->
  Spec.confined root v = true ->
  Fs.lookup_path (files w) (Fs.names root) = inr Fs.Directory ->
  write_file proc filePath content w = (w1, res) ->
  files w !! key = None -> files w1 !! key = Some Fs.Directory ->
  Spec.dir_inside (Fs.names root) key = true.
Proof.
  intros Hc root Hv Hconf Hroot Hw Hk Hk1.
  destruct (validated_names _ _ _ Hc Hv) as (segs & Ev & Hsegs & Hnames & Hdir).
  destruct (resolve_render (cwd proc) (ALLOWED_DIRECTORY proc) Hc)
    as (rs & Er & Hrs).
  fold root in Er.
  assert (Forall plain rs) as Hprs by (eapply Forall_impl; [done|apply proper_plain]).
  assert (Forall plain segs) as Hpsegs
    by (eapply Forall_impl; [done|apply proper_plain]).
  assert (Fs.names root = rs) as Hnr by (rewrite Er; by apply names_render).
  rewrite Hnr in Hroot |- *. clear Hnr.
  assert (exists rest, segs = rs ++ rest) as [rest Hrest]
    by (apply confined_names; [done|done|by rewrite <- Er, <- Ev]).
  rewrite write_file_run, Hv in Hw. cbv zeta in Hw.
  destruct (Fs.mkdir_p (files w) Fs.root_dir (Fs.names (Path.dirname v)))
    as [t e] eqn:Em.
  assert (t !! key = Some Fs.Directory) as Ht.
  { destruct e as [e|]; [by injection Hw as <- _|].
    destruct (Fs.store t (Fs.names v) (Utf8.encode content)) as [t' [e|]] eqn:Es.
    - apply store_failed in Es as ->. by injection Hw as <- _.
    - apply store_ok in Es as (-> & _ & _). injection Hw as <- _.
      cbn [files with_files record] in Hk1.
      destruct (decide (key = Fs.names v)) as [->|Hne].
      + by rewrite lookup_insert_eq in Hk1.
      + by rewrite lookup_insert_ne in Hk1. }
  assert (t !! key <> files w !! key) as Hne by congruence.
  destruct (mkdir_p_changes _ _ _ _ _ _ Em Hne) as (_ & _ & r1 & x & r2 & Hp & ->).
  cbn [app Fs.root_dir].
  destruct (list_last_cases segs) as [Hnil|(parent & n & Hsn)].
  { rewrite Ev, Hnil in Hp.
    change (Fs.names (Path.dirname (render []))) with (@nil jsstring) in Hp.
    by destruct r1. }
  destruct (Hdir parent n Hsn) as [_ Hnd]. rewrite Hnd in Hp. subst parent.
  unfold Spec.dir_inside.
  assert (rs `prefix_of` segs) as P1 by (by exists rest).
  assert ((r1 ++ [x]) `prefix_of` segs) as P2.
  { exists (r2 ++ [n]). by rewrite Hsn, <- !app_assoc. }
  destruct (prefix_weak_total _ _ _ P1 P2) as [[q ->]|[q Hq]].
  - by rewrite strip_prefix_app.
  - destruct (list_last_cases q) as [->|(q' & y & ->)].
    + rewrite app_nil_r in Hq. rewrite Hq. by rewrite strip_prefix_refl.
    + exfalso.
      pose proof (lookup_path_prefixes _ _ Hroot r1 x (q' ++ [y])) as K.
      rewrite Hq, <- !app_assoc in K. specialize (K eq_refl).
      cbn [app Fs.root_dir] in Hk. congruence.
Qed.

End WriteGeneral.

(** C5 (fails on the code).  [write_file] creates the missing parents of the
    resolved path before writing, so [write_file("sub/dir/file.txt", c)]
    succeeds in a tree where only /allowed exists and creates /allowed/sub
    and /allowed/sub/dir.  But the guard lets /allowed-evil/sub/f.txt through,
    and for it [write_file] creates /allowed-evil and /allowed-evil/sub,
    directories that are not inside /allowed. *)
Theorem write_file_creates_parents :
  let inside := write_file Sample.at_root (lit "sub/dir/file.txt") (lit "c")
                  Sample.bare in
  let outside := write_file Sample.at_root (lit "/allowed-evil/sub/f.txt") (lit "c")
                   Sample.bare in
  (snd inside
     = inr {| text := lit "Successfully wrote to file: sub/dir/file.txt";
              isError := None |}
   /\ calls (fst inside)
        = [CallWriteFile (lit "/allowed/sub/dir/file.txt") (lit "c");
           CallMkdir (lit "/allowed/sub/dir")]
   /\ files Sample.bare !! [lit "allowed"; lit "sub"] = None
   /\ files (fst inside) !! [lit "allowed"; lit "sub"] = Some Fs.Directory
   /\ files (fst inside) !! [lit "allowed"; lit "sub"; lit "dir"] = Some Fs.Directory
   /\ files (fst inside) !! [lit "allowed"; lit "sub"; lit "dir"; lit "file.txt"]
        = Some (Fs.File (Utf8.encode (lit "c"))))
  /\ (snd outside
        = inr {| text := lit "Successfully wrote to file: /allowed-evil/sub/f.txt";
                 isError := None |}
      /\ files Sample.bare !! [lit "allowed-evil"] = None
      /\ files (fst outside) !! [lit "allowed-evil"] = Some Fs.Directory
      /\ files (fst outside) !! [lit "allowed-evil"; lit "sub"] = Some Fs.Directory
      /\ Spec.dir_inside (Fs.names (lit "/allowed")) [lit "allowed-evil"] = false
      /\ Spec.dir_inside (Fs.names (lit "/allowed")) [lit "allowed-evil"; lit "sub"]
           = false).
Proof. cbv zeta. repeat split; vm_compute; reflexivity. Qed.

(** ** Rejected candidates *)

(** C3 (as worded, fails).  [list_files] on a rejected candidate returns a
    flagged result whose text contains the resolved allowed root: its debug
    block prints [ALLOWED_DIRECTORY]. *)
Lemma list_files_denied_shows_root :
  validatePath Sample.at_app (lit "/etc")
    = inl (JsError (lit "Access denied: Path /etc is outside allowed directory"))
  /\ exists res,
       list_files Sample.at_app (Some (lit "/etc")) Sample.start
         = (Sample.start, inr res)
       /\ isError res = Some true
       /\ includes (text res)
            (Path.resolve (cwd Sample.at_app) (ALLOWED_DIRECTORY Sample.at_app))
          = true.
Proof.
  split; [reflexivity|]. eexists. split; [reflexivity|].
  split; vm_compute; reflexivity.
Qed.

(** C3 (amended).  When the guard rejects the candidate, each handler
    returns the world as it found it, so no [fs] call was made and no file
    touched, together with a flagged result whose text contains the
    candidate as given.  For [read_file] and [write_file] the text is fixed
    wording around the candidate; for [list_files] it is preceded by the debug
    block, which prints [ALLOWED_DIRECTORY], the working directory and the
    module directory. *)
Theorem denied_without_fs_call proc w filePath e :
  validatePath proc filePath = inl e ->
  let denial := lit "Access denied: Path " ++ filePath
                  ++ lit " is outside allowed directory" in
  let read := {| text := lit "Error reading file " ++ filePath ++ lit ": " ++ denial;
                 isError := Some true |} in
  let written := {| text := lit "Error writing file " ++ filePath ++ lit ": " ++ denial;
                    isError := Some true |} in
  let listed := {| text := debugInfo proc filePath ++ FsPromises.nl ++ FsPromises.nl
                             ++ lit "Error listing directory " ++ filePath
                             ++ lit ": " ++ denial;
                   isError := Some true |} in
  read_file proc filePath w = (w, inr read)
  /\ (forall content, write_file proc filePath content w = (w, inr written))
  /\ list_files proc (Some filePath) w = (w, inr listed)
  /\ (filePath = lit "." -> list_files proc None w = (w, inr listed))
  /\ includes (text read) filePath = true
  /\ includes (text written) filePath = true
  /\ includes (text listed) filePath = true
  /\ includes (text listed) (ALLOWED_DIRECTORY proc) = true.
Proof.
  intros He. apply validatePath_rejects_inv in He as He'. destruct He' as [_ ->].
  cbv zeta. repeat split.
  - by rewrite read_file_run, He.
  - intros content. by rewrite write_file_run, He.
  - pose proof (list_files_run proc (Some filePath) w) as H. cbv zeta in H.
    by rewrite H, He.
  - intros ->. pose proof (list_files_run proc None w) as H. cbv zeta in H.
    by rewrite H, He.
  - cbn [text]. apply includes_mid.
  - cbn [text]. apply includes_mid.
  - cbn [text]. unfold debugInfo. rewrite <- !app_assoc.
    rewrite (app_assoc (lit "Debug info:")), (app_assoc _ (lit "- ALLOWED_DIRECTORY: ")).
    rewrite (app_assoc _ (ALLOWED_DIRECTORY proc)), (app_assoc _ FsPromises.nl).
    rewrite (app_assoc _ (lit "- Requested path: ")).
    apply includes_mid.
  - cbn [text]. unfold debugInfo. rewrite <- !app_assoc.
    rewrite (app_assoc (lit "Debug info:")), (app_assoc _ (lit "- ALLOWED_DIRECTORY: ")).
    apply includes_mid.
Qed.

(** The refusal of C3 for /etc/passwd. *)
Lemma denied_without_fs_call_witness :
  validatePath Sample.at_root (lit "/etc/passwd")
    = inl (JsError (lit "Access denied: Path /etc/passwd is outside allowed directory"))
  /\ read_file Sample.at_root (lit "/etc/passwd") Sample.start
     = (Sample.start,
        inr {| text := lit "Error reading file /etc/passwd: Access denied: Path /etc/passwd is outside allowed directory";
               isError := Some true |}).
Proof.
  split; [reflexivity|].
  exact (proj1 (denied_without_fs_call Sample.at_root Sample.start
                  (lit "/etc/passwd") _ eq_refl)).
Defined.

(** ** Listing *)

Section Listing.

Implicit Types t : gmap (list jsstring) Fs.node.

(** A [Dirent] of a listing carries the entry that sits in the directory
    under its name, itself and not what a link may point to; and every entry
    of the directory is listed. *)
Lemma children_spec t d x :
  x ∈ Fs.children t d <-> t !! (d ++ [Fs.name x]) = Some (Fs.entry x).
Proof.
  unfold Fs.children. rewrite list_elem_of_omap. split.
  - intros [[k n] [Hin Hf]]. apply elem_of_map_to_list in Hin. simpl in Hf.
    destruct (Fs.strip_prefix d k) as [[|m [|]]|] eqn:E; try done.
    injection Hf as <-. simpl. by rewrite <- (strip_prefix_inv _ _ _ E).
  - intros H. exists (d ++ [Fs.name x], Fs.entry x). split.
    + by apply elem_of_map_to_list.
    + simpl. rewrite strip_prefix_app. by destruct x.
Qed.

End Listing.

(** How [list_files] marks one entry. *)
Lemma format_item_mark d :
  format_item (to_item d)
  = (match Fs.entry d with Fs.Directory => FOLDER | _ => PAGE end)
      ++ lit " " ++ Fs.name d.
Proof. unfold format_item, to_item, Fs.isDirectory. by destruct (Fs.entry d). Qed.

(** C10.  [list_files] labels an entry a directory exactly when the listed
    entry itself is a directory; a regular file, a symbolic link (whatever it
    points to), a socket, a pipe or a device are all labelled a file.  The
    text returned carries one line per entry of the listed directory, in the
    order of the listing, with the folder mark on the directories and the
    page mark on everything else. *)
Theorem list_files_marks_directories :
  (forall d, item_type (to_item d) = lit "directory" <-> Fs.entry d = Fs.Directory)
  /\ (forall d, item_type (to_item d) = lit "file" <-> Fs.entry d <> Fs.Directory)
  /\ (forall n k, item_type (to_item {| Fs.name := n; Fs.entry := Fs.Special k |})
                  = lit "file")
  /\ (forall t dir d, d ∈ Fs.children t dir <->
                      t !! (dir ++ [Fs.name d]) = Some (Fs.entry d))
  /\ (forall proc path w,
        let dirPath := match path with Some p => p | None => lit "." end in
        let v := Path.resolve (cwd proc) dirPath in
        validatePath proc dirPath = inr v /\
        Fs.lookup_path (files w) (Fs.names v) = inr Fs.Directory ->
        list_files proc path w =
          (record (CallReaddir v) w,
           inr {| text :=
                    debugInfo proc dirPath ++ FsPromises.nl ++ FsPromises.nl
                      ++ lit "Contents of " ++ dirPath
                      ++ lit " (resolved to " ++ v ++ lit "):"
                      ++ FsPromises.nl ++ FsPromises.nl
                      ++ join FsPromises.nl
                           (map (fun d =>
                                   (match Fs.entry d with
                                    | Fs.Directory => FOLDER
                                    | _ => PAGE
                                    end) ++ lit " " ++ Fs.name d)
                                (Fs.children (files w) (Fs.names v)));
                  isError := None |}))
  /\ map (fun d => (Fs.name d, item_type (to_item d)))
         (Fs.children Sample.tree (Fs.names (lit "/allowed")))
     = [(lit "notes.txt", lit "file"); (lit "link", lit "file");
        (lit "sub", lit "directory")].
Proof.
  split; [|split; [|split; [|split; [|split]]]].
  - intros d. unfold to_item, Fs.isDirectory. simpl.
    destruct (Fs.entry d); split; done.
  - intros d. unfold to_item, Fs.isDirectory. simpl.
    destruct (Fs.entry d); split; done.
  - done.
  - intros t dir d. apply children_spec.
  - intros proc path w dirPath v [Hv Hd].
    pose proof (list_files_run proc path w) as H. cbv zeta in H.
    fold dirPath in H. rewrite H, Hv.
    unfold FsPromises.readdir. cbn [files record]. rewrite Hd.
    rewrite map_map. do 3 f_equal. do 11 f_equal.
    apply map_ext. intros d. apply format_item_mark.
  - vm_compute. reflexivity.
Qed.

(** C4 (fails on the code).  Without a path [list_files] lists ["."], which
    the guard resolves against the working directory.  Started inside the
    served directory it lists that directory; started in a subdirectory it
    lists the subdirectory; started anywhere else it is refused. *)
Theorem list_files_default_follows_cwd :
  (forall proc w, list_files proc None w = list_files proc (Some (lit ".")) w)
  /\ snd (list_files Sample.at_root None Sample.start)
     = inr {| text := debugInfo Sample.at_root (lit ".") ++ [10; 10]
                        ++ lit "Contents of . (resolved to /allowed):" ++ [10; 10]
                        ++ PAGE ++ lit " notes.txt" ++ [10]
                        ++ PAGE ++ lit " link" ++ [10]
                        ++ FOLDER ++ lit " sub";
              isError := None |}
  /\ snd (list_files Sample.at_sub None Sample.start)
     = inr {| text := debugInfo Sample.at_sub (lit ".") ++ [10; 10]
                        ++ lit "Contents of . (resolved to /allowed/sub):" ++ [10; 10]
                        ++ PAGE ++ lit " inner.txt";
              isError := None |}
  /\ list_files Sample.at_app None Sample.start
     = (Sample.start,
        inr {| text := debugInfo Sample.at_app (lit ".") ++ [10; 10]
                         ++ lit "Error listing directory .: Access denied: Path . is outside allowed directory";
               isError := Some true |}).
Proof. repeat split; vm_compute; reflexivity. Qed.

(** ** Results *)

(** C8.  Each handler returns a result for every input and never lets an
    exception out.  The result is flagged with [isError: true] exactly when
    the guard or an [fs] call threw, and carries no flag exactly when all of
    them went through; a flagged result names the path as the caller gave it.
    In particular reading a path that does not exist gives a flagged result
    with the requested path in its text. *)
Theorem handlers_return_flagged proc w :
  (forall filePath, exists w' res,
      read_file proc filePath w = (w', inr res)
      /\ (isError res = None \/ isError res = Some true)
      /\ (isError res = None <->
            exists v bytes,
              validatePath proc filePath = inr v
              /\ Fs.lookup_path (files w) (Fs.names v) = inr (Fs.File bytes))
      /\ (isError res = Some true -> includes (text res) filePath = true))
  /\ (forall filePath content, exists w' res,
        write_file proc filePath content w = (w', inr res)
        /\ (isError res = None \/ isError res = Some true)
        /\ (isError res = None <->
              exists v t t',
                validatePath proc filePath = inr v
                /\ Fs.mkdir_p (files w) Fs.root_dir (Fs.names (Path.dirname v))
                   = (t, None)
                /\ Fs.store t (Fs.names v) (Utf8.encode content) = (t', None))
        /\ (isError res = Some true -> includes (text res) filePath = true))
  /\ (forall path, exists w' res,
        let dirPath := match path with Some p => p | None => lit "." end in
        list_files proc path w = (w', inr res)
        /\ (isError res = None \/ isError res = Some true)
        /\ (isError res = None <->
              exists v,
                validatePath proc dirPath = inr v
                /\ Fs.lookup_path (files w) (Fs.names v) = inr Fs.Directory)
        /\ (isError res = Some true -> includes (text res) dirPath = true))
  /\ (forall filePath,
        Fs.lookup_path (files w) (Fs.names (Path.resolve (cwd proc) filePath))
          = inl Fs.ENOENT ->
        exists w' res,
          read_file proc filePath w = (w', inr res)
          /\ isError res = Some true
          /\ includes (text res) filePath = true).
Proof.
  split; [|split; [|split]].
  - intros filePath. rewrite read_file_run.
    destruct (validatePath proc filePath) as [e|v] eqn:Ev.
    { eexists _, _. split; [done|]. cbn [isError text].
      split; [by right|]. split; [|intros _; apply includes_mid].
      split; [done|]. by intros (? & ? & ? & _). }
    unfold FsPromises.readFile. cbn [files record].
    destruct (Fs.lookup_path (files w) (Fs.names v)) as [e|[bytes| |k]] eqn:El;
      eexists _, _; (split; [done|]); cbn [isError text].
    2: { split; [by left|]. split; [|done]. split; [|done]. intros _. eauto. }
    all: split; [by right|]; split; [|intros _; apply includes_mid].
    all: split; [done|]; intros (v' & b & [= <-] & Hl); congruence.
  - intros filePath content. rewrite write_file_run.
    destruct (validatePath proc filePath) as [e|v] eqn:Ev.
    { eexists _, _. split; [done|]. cbn [isError text].
      split; [by right|]. split; [|intros _; apply includes_mid].
      split; [done|]. by intros (? & ? & ? & ? & _). }
    cbv zeta.
    destruct (Fs.mkdir_p (files w) Fs.root_dir (Fs.names (Path.dirname v)))
      as [t [e|]] eqn:Em.
    { eexists _, _. split; [done|]. cbn [isError text].
      split; [by right|]. split; [|intros _; apply includes_mid].
      split; [done|]. intros (v' & t1 & t2 & [= <-] & Hm & _). congruence. }
    destruct (Fs.store t (Fs.names v) (Utf8.encode content)) as [t' [e|]] eqn:Es;
      eexists _, _; (split; [done|]); cbn [isError text].
    + split; [by right|]. split; [|intros _; apply includes_mid].
      split; [done|]. intros (v' & t1 & t2 & [= <-] & Hm & Hs).
      rewrite Em in Hm. injection Hm as <-. congruence.
    + split; [by left|]. split; [|done]. split; [|done]. intros _.
      by exists v, t, t'.
  - intros path. pose proof (list_files_run proc path w) as H. cbv zeta in *.
    rewrite H. clear H.
    destruct (validatePath proc _) as [e|v] eqn:Ev.
    { eexists _, _. split; [done|]. cbn [isError text].
      split; [by right|]. split.
      - split; [done|]. by intros (? & ? & _).
      - intros _. apply includes_after4. }
    unfold FsPromises.readdir. cbn [files record].
    destruct (Fs.lookup_path (files w) (Fs.names v)) as [e|[bytes| |k]] eqn:El;
      eexists _, _; (split; [done|]); cbn [isError text].
    3: { split; [by left|]. split; [|done]. split; [|done]. intros _. eauto. }
    all: split; [by right|]; split;
      [split; [done|]; intros (v' & [= <-] & Hl); congruence|].
    all: intros _; apply includes_after4.
  - intros filePath Hl. rewrite read_file_run.
    destruct (validatePath proc filePath) as [e|v] eqn:Ev.
    { eexists _, _. split; [done|]. split; [done|]. apply includes_mid. }
    apply validatePath_accepts in Ev as [-> _].
    unfold FsPromises.readFile. cbn [files record]. rewrite Hl.
    eexists _, _. split; [done|]. split; [done|]. apply includes_mid.
Qed.

(** A missing file inside the served directory, read. *)
Example read_missing_file :
  read_file Sample.at_root (lit "nothere.txt") Sample.start
  = (record (CallReadFile (lit "/allowed/nothere.txt")) Sample.start,
     inr {| text := lit "Error reading file nothere.txt: ENOENT: no such file or directory, open '/allowed/nothere.txt'";
            isError := Some true |}).
Proof. vm_compute. reflexivity. Qed.

(** ** Relative candidates *)

Lemma resolve_relative cwd p other :
  Path.isAbsolute cwd = true -> p <> [] -> Path.isAbsolute p = false ->
  Path.resolve cwd p = Path.resolve other (cwd ++ Path.sep ++ p).
Proof.
  intros Hc Hp Ha. unfold Path.resolve.
  destruct p as [|c p]; [done|]. rewrite Ha.
  destruct cwd as [|d cwd]; [done|]. rewrite Hc.
  cbn [app]. cbn [Path.isAbsolute] in *. rewrite Hc.
  by rewrite <- !app_assoc.
Qed.

(** C9 (fails on the code in its last part).  A relative candidate is
    resolved against the working directory: its resolution is that of the
    working directory followed by a separator and the candidate, and
    [ALLOWED_DIRECTORY] plays no part in it.  The guard accepts it exactly
    when that resolution has the resolved root as a string prefix, so the same
    candidate (["notes.txt"], or the default ["."] of [list_files]) is
    accepted by a server started in /allowed and refused by one started in
    /srv/app.  But a server started in /allowed-evil accepts ["x"], whose
    resolution /allowed-evil/x is not inside /allowed. *)
Theorem relative_resolves_against_cwd :
  (forall proc filePath,
     Path.isAbsolute (cwd proc) = true -> filePath <> [] ->
     Path.isAbsolute filePath = false ->
     forall v,
       validatePath proc filePath = inr v <->
       v = Path.resolve [] (cwd proc ++ Path.sep ++ filePath)
       /\ startsWith v (Path.resolve (cwd proc) (ALLOWED_DIRECTORY proc)) = true)
  /\ validatePath Sample.at_root (lit "notes.txt") = inr (lit "/allowed/notes.txt")
  /\ validatePath Sample.at_app (lit "notes.txt")
     = inl (JsError (lit "Access denied: Path notes.txt is outside allowed directory"))
  /\ validatePath Sample.at_root (lit ".") = inr (lit "/allowed")
  /\ validatePath Sample.at_sub (lit ".") = inr (lit "/allowed/sub")
  /\ validatePath Sample.at_app (lit ".")
     = inl (JsError (lit "Access denied: Path . is outside allowed directory"))
  /\ validatePath Sample.at_evil (lit "x") = inr (lit "/allowed-evil/x")
  /\ Spec.confined (lit "/allowed") (lit "/allowed-evil/x") = false.
Proof.
  split; [|repeat split; reflexivity].
  intros proc filePath Hc Hp Ha v.
  rewrite validatePath_accepts.
  by rewrite (resolve_relative _ _ [] Hc Hp Ha).
Qed.

(** * Further properties *)

(** ** More on paths *)

Section MorePaths.

Import Path.

Lemma split_app_sep x y :
  split CHAR_FORWARD_SLASH (x ++ CHAR_FORWARD_SLASH :: y)
  = split CHAR_FORWARD_SLASH x ++ split CHAR_FORWARD_SLASH y.
Proof.
  induction x as [|c x IH]; cbn [app split].
  - by rewrite N.eqb_refl.
  - destruct (N.eqb c CHAR_FORWARD_SLASH); [by rewrite IH|].
    rewrite IH.
    destruct (split CHAR_FORWARD_SLASH x) as [|q qs] eqn:E;
      [by apply split_not_nil in E|]. done.
Qed.

Lemma normalize_segs_app b acc l1 l2 :
  normalize_segs b acc (l1 ++ l2)
  = normalize_segs b (rev (normalize_segs b acc l1)) l2.
Proof.
  revert acc; induction l1 as [|s l1 IH]; intros acc; cbn [app normalize_segs].
  - by rewrite rev_involutive.
  - destruct (Js.eqb s [] || Js.eqb s dot); [apply IH|].
    destruct (Js.eqb s dotdot); [|apply IH].
    destruct acc as [|t acc]; [apply IH|].
    destruct (Js.eqb t dotdot); apply IH.
Qed.

Lemma normalize_segs_proper_id acc segs :
  Forall proper segs -> normalize_segs false acc segs = rev acc ++ segs.
Proof.
  intros H. revert acc. induction H as [|s segs (H1 & H2 & H3 & _) _ IH]; intros acc.
  - cbn. by rewrite app_nil_r.
  - cbn [normalize_segs]. unfold Js.eqb.
    rewrite !bool_decide_eq_false_2 by done. cbn [orb].
    rewrite IH. cbn [rev]. by rewrite <- app_assoc.
Qed.

Lemma normalize_segs_skip_empty b acc l :
  normalize_segs b acc ([] :: l) = normalize_segs b acc l.
Proof. done. Qed.

Lemma normalize_segs_skip_dot b acc l :
  normalize_segs b acc (dot :: l) = normalize_segs b acc l.
Proof. done. Qed.

Lemma proper_no_sep segs : Forall proper segs -> Forall no_sep segs.
Proof. intros H. eapply Forall_impl; [done|]. by intros ? (_ & _ & _ & ?). Qed.

(** Resolving a normalized absolute path gives it back, whatever the
    working directory. *)
Lemma resolve_render_id cwd segs :
  Forall proper segs -> resolve cwd (render segs) = render segs.
Proof.
  intros H. unfold resolve, render, normalizeString.
  change (sep ++ join sep segs) with (CHAR_FORWARD_SLASH :: join sep segs).
  cbn [isAbsolute]. rewrite N.eqb_refl.
  change ((CHAR_FORWARD_SLASH :: join sep segs) ++ sep ++ [])
    with ([] ++ CHAR_FORWARD_SLASH :: (join sep segs ++ CHAR_FORWARD_SLASH :: [])).
  rewrite !split_app_sep. cbn [split app]. rewrite normalize_segs_skip_empty.
  cbn [negb]. destruct segs as [|s segs]; [reflexivity|].
  rewrite split_join; [|by apply proper_no_sep|done].
  rewrite normalize_segs_app, (normalize_segs_proper_id [] (s :: segs)) by done.
  change (rev [] ++ s :: segs) with (s :: segs).
  rewrite normalize_segs_skip_empty. cbn [normalize_segs].
  rewrite rev_involutive. reflexivity.
Qed.

(** An absolute candidate resolves the same from every working directory. *)
Lemma resolve_absolute cwd1 cwd2 p :
  isAbsolute p = true -> resolve cwd1 p = resolve cwd2 p.
Proof.
  intros H. unfold resolve. destruct p as [|c p]; [done|]. by rewrite H.
Qed.

(** What [resolve] computes from an absolute working directory. *)
Lemma resolve_from cwd p :
  isAbsolute cwd = true ->
  resolve cwd p =
    sep ++ join sep
      (normalize_segs false []
         (if isAbsolute p then split CHAR_FORWARD_SLASH p
          else split CHAR_FORWARD_SLASH cwd ++ split CHAR_FORWARD_SLASH p)).
Proof.
  intros Hc. unfold resolve, normalizeString.
  assert (forall x acc, normalize_segs false acc (split CHAR_FORWARD_SLASH (x ++ sep ++ []))
                        = normalize_segs false acc (split CHAR_FORWARD_SLASH x)) as Htail.
  { intros x acc. change (x ++ sep ++ []) with (x ++ CHAR_FORWARD_SLASH :: []).
    rewrite split_app_sep, normalize_segs_app.
    change (split CHAR_FORWARD_SLASH []) with [@nil N].
    rewrite normalize_segs_skip_empty. cbn [normalize_segs].
    by rewrite rev_involutive. }
  destruct cwd as [|d cwd]; [done|].
  destruct p as [|c p].
  - rewrite Hc. cbn [isAbsolute negb]. f_equal. f_equal.
    change ((d :: cwd) ++ sep ++ []) with ((d :: cwd) ++ CHAR_FORWARD_SLASH :: []).
    by rewrite split_app_sep.
  - destruct (isAbsolute (c :: p)) eqn:Ha.
    + cbn [negb]. by rewrite Htail.
    + rewrite Hc. cbn [negb]. f_equal. f_equal.
      change ((d :: cwd) ++ sep ++ (c :: p) ++ sep ++ [])
        with ((d :: cwd) ++ CHAR_FORWARD_SLASH :: ((c :: p) ++ sep ++ [])).
      rewrite split_app_sep, !normalize_segs_app. by rewrite Htail.
Qed.

End MorePaths.

Section MoreGuard.

Import Path.

Lemma normalize_segs_trailing b acc l s :
  s = [] \/ s = dot ->
  normalize_segs b acc (l ++ [s]) = normalize_segs b acc l.
Proof.
  intros Hs. rewrite normalize_segs_app.
  destruct Hs as [->| ->]; cbn [normalize_segs Js.eqb]; cbn; by rewrite rev_involutive.
Qed.

Lemma isAbsolute_app p x : p <> [] -> isAbsolute (p ++ x) = isAbsolute p.
Proof. by destruct p. Qed.

(** A trailing separator, or a trailing [/.], does not change where a
    candidate resolves. *)
Lemma resolve_trailing cwd p tail :
  isAbsolute cwd = true -> p <> [] ->
  tail = sep \/ tail = sep ++ dot ->
  resolve cwd (p ++ tail) = resolve cwd p.
Proof.
  intros Hc Hp Ht. rewrite !resolve_from by done.
  rewrite isAbsolute_app by done.
  assert (exists s, (s = [] \/ s = dot) /\
            split CHAR_FORWARD_SLASH (p ++ tail) = split CHAR_FORWARD_SLASH p ++ [s])
    as (s & Hs & ->).
  { destruct Ht as [->| ->].
    - exists []. split; [by left|]. unfold sep. by rewrite split_app_sep.
    - exists dot. split; [by right|]. unfold sep. cbn [app]. by rewrite split_app_sep. }
  destruct (isAbsolute p).
  - by rewrite normalize_segs_trailing.
  - by rewrite app_assoc, normalize_segs_trailing.
Qed.


End MoreGuard.


(** ** More on the guard *)

(** X1.  A path the guard returns is absolute and normalized, resolves to
    itself from any working directory, and is accepted unchanged when handed
    back as a candidate. *)
Theorem validatePath_returns_normalized proc filePath v :
  Path.isAbsolute (cwd proc) = true ->
  validatePath proc filePath = inr v ->
  (exists segs, v = Path.render segs /\ Forall Path.proper segs)
  /\ (forall other, Path.resolve other v = v)
  /\ validatePath proc v = inr v.
Proof.
  intros Hc Hv.
  destruct (validated_names _ _ _ Hc Hv) as (segs & -> & Hsegs & _).
  split; [eauto|]. split; [intros; by apply resolve_render_id|].
  apply validatePath_accepts. rewrite resolve_render_id by done.
  split; [done|]. by apply validatePath_accepts in Hv as [_ ?].
Qed.

Lemma validatePath_returns_normalized_witness :
  Path.isAbsolute (cwd Sample.at_root) = true
  /\ validatePath Sample.at_root (lit "sub/../sub/./inner.txt")
     = inr (lit "/allowed/sub/inner.txt")
  /\ validatePath Sample.at_root (lit "/allowed/sub/inner.txt")
     = inr (lit "/allowed/sub/inner.txt").
Proof.
  split; [reflexivity|]. split; [reflexivity|].
  exact (proj2 (proj2 (validatePath_returns_normalized Sample.at_root
                         (lit "sub/../sub/./inner.txt")
                         (lit "/allowed/sub/inner.txt") eq_refl eq_refl))).
Defined.

(** X2.  A trailing separator or a trailing [/.] on a candidate changes
    nothing: the guard returns the same path for it, or refuses both. *)
Theorem validatePath_trailing_separator proc filePath tail v :
  Path.isAbsolute (cwd proc) = true -> filePath <> [] ->
  tail = Path.sep \/ tail = Path.sep ++ Path.dot ->
  validatePath proc (filePath ++ tail) = inr v <-> validatePath proc filePath = inr v.
Proof.
  intros Hc Hp Ht. rewrite !validatePath_accepts.
  by rewrite resolve_trailing.
Qed.

Lemma validatePath_trailing_separator_witness :
  validatePath Sample.at_root (lit "notes.txt/") = inr (lit "/allowed/notes.txt")
  <-> validatePath Sample.at_root (lit "notes.txt") = inr (lit "/allowed/notes.txt").
Proof.
  apply (validatePath_trailing_separator Sample.at_root (lit "notes.txt")
           Path.sep (lit "/allowed/notes.txt")).
  - reflexivity.
  - discriminate.
  - left. reflexivity.
Defined.

(** X3.  When both the candidate and [ALLOWED_DIRECTORY] are absolute, the
    guard's answer does not depend on the working directory. *)
Theorem validatePath_absolute_any_cwd proc1 proc2 filePath :
  ALLOWED_DIRECTORY proc1 = ALLOWED_DIRECTORY proc2 ->
  Path.isAbsolute (ALLOWED_DIRECTORY proc1) = true ->
  Path.isAbsolute filePath = true ->
  validatePath proc1 filePath = validatePath proc2 filePath.
Proof.
  intros Ha Hr Hp. unfold validatePath. rewrite <- Ha.
  by rewrite (resolve_absolute (cwd proc1) (cwd proc2) filePath),
             (resolve_absolute (cwd proc1) (cwd proc2) (ALLOWED_DIRECTORY proc1)).
Qed.

Lemma validatePath_absolute_any_cwd_witness :
  validatePath Sample.at_root (lit "/allowed/sub/../notes.txt")
  = validatePath Sample.at_app (lit "/allowed/sub/../notes.txt").
Proof.
  apply validatePath_absolute_any_cwd; reflexivity.
Defined.

(** X4.  A server whose [ALLOWED_DIRECTORY] resolves to the root of the file
    system refuses nothing. *)
Theorem validatePath_root_accepts_all proc filePath :
  Path.isAbsolute (cwd proc) = true ->
  Path.resolve (cwd proc) (ALLOWED_DIRECTORY proc) = Path.sep ->
  validatePath proc filePath = inr (Path.resolve (cwd proc) filePath).
Proof.
  intros Hc Hr. apply validatePath_accepts. split; [done|]. rewrite Hr.
  destruct (resolve_render (cwd proc) filePath Hc) as (segs & -> & _).
  apply startsWith_app.
Qed.

Lemma validatePath_root_accepts_all_witness :
  validatePath MoreSamples.at_slash (lit "/etc/passwd") = inr (lit "/etc/passwd").
Proof.
  apply (validatePath_root_accepts_all MoreSamples.at_slash (lit "/etc/passwd"));
    reflexivity.
Defined.



(** ** More on the file tree *)

Section MoreTree.

Implicit Types t : gmap (list jsstring) Fs.node.
Implicit Types a r key : list jsstring.

(** Where every directory on the way exists [mkdir -p] does nothing. *)
Lemma mkdir_p_noop t a r :
  (forall r1 x r2, r = r1 ++ x :: r2 -> t !! (a ++ r1 ++ [x]) = Some Fs.Directory) ->
  Fs.mkdir_p t a r = (t, None).
Proof.
  revert a; induction r as [|s r IH]; intros a H; simpl; [done|].
  pose proof (H [] s r eq_refl) as E. simpl in E. rewrite E.
  apply IH. intros r1 x r2 ->.
  specialize (H (s :: r1) x r2 eq_refl). by rewrite <- app_assoc.
Qed.


(** Whether [store] succeeds does not depend on the bytes. *)
Lemma store_bytes t p b1 b2 t' e :
  Fs.store t p b1 = (t', e) ->
  Fs.store t p b2 = (match e with None => <[p := Fs.File b2]> t | Some _ => t end, e).
Proof.
  unfold Fs.store. destruct (rev p) as [|n q]; [by intros [= <- <-]|].
  destruct (Fs.lookup_path t (rev q)) as [?|[| |]]; try by intros [= <- <-].
  destruct (t !! p) as [[| |]|]; by intros [= <- <-].
Qed.

(** [store] touches the target only, and only to put a regular file in the
    place of nothing or of a regular file. *)
Lemma store_frame t p bytes t' e key :
  Fs.store t p bytes = (t', e) ->
  (key <> p -> t' !! key = t !! key)
  /\ (forall n, t !! key = Some n -> (forall b, n <> Fs.File b) -> t' !! key = Some n).
Proof.
  intros H. destruct e as [e|].
  - by apply store_failed in H as ->.
  - apply store_ok in H as (-> & Hold & _). split.
    + intros Hk. by rewrite lookup_insert_ne.
    + intros n Hn Hf. destruct (decide (key = p)) as [->|Hk].
      * destruct Hold as [Hold|[old Hold]]; rewrite Hold in Hn; [done|].
        injection Hn as <-. by destruct (Hf old).
      * by rewrite lookup_insert_ne.
Qed.

(** Once the parent chain is in place and the file is stored, [mkdir -p] on
    the parent has nothing left to do. *)
Lemma mkdir_p_after_store t0 a r t p bytes t' :
  Fs.mkdir_p t0 a r = (t, None) -> Fs.store t p bytes = (t', None) ->
  Fs.mkdir_p t' a r = (t', None).
Proof.
  intros Hm Hs. apply (mkdir_p_settled t); [by apply mkdir_p_again in Hm|].
  intros k Hk. by apply (store_frame _ _ _ _ _ k Hs).
Qed.


End MoreTree.

Section MoreStrings.

Lemma includes_join sep x l : x ∈ l -> includes (join sep l) x = true.
Proof.
  induction 1 as [x l|x y l Hin IH].
  - destruct l as [|z l]; cbn [join].
    + rewrite <- (app_nil_r x) at 1. apply (includes_mid [] x []).
    + apply (includes_mid [] x).
  - destruct l as [|z l]; [by apply elem_of_nil in Hin|].
    rewrite join_cons2. by apply includes_skip, includes_skip.
Qed.

End MoreStrings.

(** ** More on the handlers *)

Section MoreHandlers.

Import FsPromises.


(** The tree before and after any [write_file]. *)
Lemma write_file_tree proc w filePath content key :
  let w1 := fst (write_file proc filePath content w) in
  let target := Fs.names (Path.resolve (cwd proc) filePath) in
  (forall n, files w !! key = Some n -> key <> target -> files w1 !! key = Some n)
  /\ (forall n, files w !! key = Some n -> (forall b, n <> Fs.File b) ->
        files w1 !! key = Some n)
  /\ (files w !! key = None ->
        files w1 !! key = None \/ files w1 !! key = Some Fs.Directory
        \/ (key = target /\ files w1 !! key = Some (Fs.File (Utf8.encode content)))).
Proof.
  cbv zeta. rewrite write_file_run.
  destruct (validatePath proc filePath) as [e|v] eqn:Ev; cbn [fst]; [by auto|].
  apply validatePath_accepts in Ev as Hv. destruct Hv as [<- _]. cbv zeta.
  destruct (Fs.mkdir_p (files w) Fs.root_dir (Fs.names (Path.dirname v)))
    as [t e] eqn:Em.
  pose proof (mkdir_p_keeps (files w) Fs.root_dir (Fs.names (Path.dirname v)) key)
    as Hkeep. rewrite Em in Hkeep. cbn [fst] in Hkeep.
  assert (files w !! key = None -> t !! key = None \/ t !! key = Some Fs.Directory)
    as Hnew.
  { intros Hn. destruct (t !! key) as [m|] eqn:Et; [|by left]. right.
    assert (t !! key <> files w !! key) as Hne by congruence.
    destruct (mkdir_p_changes _ _ _ _ _ _ Em Hne) as (_ & ? & _). congruence. }
  destruct e as [e|]; cbn [fst files with_files record].
  { split; [|split]; [by intros; apply Hkeep..|].
    intros Hn. destruct (Hnew Hn); auto. }
  destruct (Fs.store t (Fs.names v) (Utf8.encode content)) as [t' e] eqn:Es.
  destruct (store_frame _ _ _ _ _ key Es) as [Hother Hdir].
  assert (files (fst (match e with
                      | Some e0 =>
                          (with_files t'
                             (record (CallWriteFile v content)
                                (with_files t (record (CallMkdir (Path.dirname v)) w))),
                           inr {| text := lit "Error writing file " ++ filePath
                                            ++ lit ": "
                                            ++ errorMessage (fs_error e0 (lit "open") v);
                                  isError := Some true |})
                      | None =>
                          (with_files t'
                             (record (CallWriteFile v content)
                                (with_files t (record (CallMkdir (Path.dirname v)) w))),
                           inr {| text := lit "Successfully wrote to file: " ++ filePath;
                                  isError := None |})
                      end)) = t') as -> by (by destruct e).
  split; [|split].
  - intros n Hn Hk. rewrite Hother by done. by apply Hkeep.
  - intros n Hn Hf. apply Hdir; [|done]. by apply Hkeep.
  - intros Hn. destruct (decide (key = Fs.names v)) as [->|Hk].
    + destruct e as [e|].
      * apply store_failed in Es as ->. destruct (Hnew Hn); auto.
      * apply store_ok in Es as (-> & _ & _). right; right.
        by rewrite lookup_insert_eq.
    + rewrite Hother by done. destruct (Hnew Hn); auto.
Qed.

End MoreHandlers.

(** X6.  [read_file] and [list_files] never change the file tree; when the
    guard refuses they make no [fs] call, and otherwise exactly one, on the
    path the guard returned. *)
Theorem read_and_list_leave_tree proc w :
  (forall filePath,
     let w1 := fst (read_file proc filePath w) in
     files w1 = files w
     /\ match validatePath proc filePath with
        | inl _ => calls w1 = calls w
        | inr v => calls w1 = CallReadFile v :: calls w
        end)
  /\ (forall path,
        let dirPath := match path with Some p => p | None => lit "." end in
        let w1 := fst (list_files proc path w) in
        files w1 = files w
        /\ match validatePath proc dirPath with
           | inl _ => calls w1 = calls w
           | inr v => calls w1 = CallReaddir v :: calls w
           end).
Proof.
  split.
  - intros filePath. cbv zeta. rewrite read_file_run.
    destruct (validatePath proc filePath) as [e|v]; [done|].
    unfold FsPromises.readFile. cbn [files record].
    by destruct (Fs.lookup_path (files w) (Fs.names v)) as [?|[| |]].
  - intros path. pose proof (list_files_run proc path w) as H. cbv zeta in *.
    rewrite H. clear H.
    destruct (validatePath proc _) as [e|v]; [done|].
    unfold FsPromises.readdir. cbn [files record].
    by destruct (Fs.lookup_path (files w) (Fs.names v)) as [?|[| |]].
Qed.

Section Scoped.

Import FsPromises.

(** No entry goes away in a [write_file]: each stays as it is, except the
    regular file at the resolved path, which may come to hold the content. *)
Lemma write_file_entry_kept proc w filePath content key n :
  files w !! key = Some n ->
  let w1 := fst (write_file proc filePath content w) in
  files w1 !! key = Some n
  \/ (key = Fs.names (Path.resolve (cwd proc) filePath)
      /\ (exists old, n = Fs.File old)
      /\ files w1 !! key = Some (Fs.File (Utf8.encode content))).
Proof.
  intros Hk. cbv zeta. rewrite write_file_run.
  destruct (validatePath proc filePath) as [e|v] eqn:Ev; cbn [fst]; [by left|].
  apply validatePath_accepts in Ev as Hv. destruct Hv as [<- _]. cbv zeta.
  destruct (Fs.mkdir_p (files w) Fs.root_dir (Fs.names (Path.dirname v)))
    as [t e] eqn:Em.
  pose proof (mkdir_p_keeps (files w) Fs.root_dir (Fs.names (Path.dirname v)) key n Hk)
    as Hkeep. rewrite Em in Hkeep. cbn [fst] in Hkeep.
  destruct e as [e|]; cbn [fst files with_files record]; [by left|].
  destruct (Fs.store t (Fs.names v) (Utf8.encode content)) as [t' [e|]] eqn:Es;
    cbn [fst files with_files record].
  - apply store_failed in Es as ->. by left.
  - apply store_ok in Es as (-> & Hold & _).
    destruct (decide (key = Fs.names v)) as [->|Hne].
    + right. split; [done|]. rewrite lookup_insert_eq. split; [|done].
      destruct Hold as [Hold|[old Hold]]; rewrite Hold in Hkeep; [done|].
      exists old. congruence.
    + left. by rewrite lookup_insert_ne.
Qed.

End Scoped.

(** X7.  In a tree of directories and regular files, for a path the system
    takes as it is: whatever its outcome, [write_file] removes no entry and
    changes none, except that the regular file at the resolved path may come
    to hold the content; what it adds are directories and that file.  Its
    [fs] calls are none (guard refused), or [mkdir] on the parent alone
    ([mkdir] failed), or [mkdir] on the parent followed by [writeFile] on the
    resolved path. *)
Theorem write_file_touches_only_its_path proc w filePath content :
  Scope.ordinary (files w) = true ->
  Scope.sound_path (Path.resolve (cwd proc) filePath) = true ->
  let w1 := fst (write_file proc filePath content w) in
  let v := Path.resolve (cwd proc) filePath in
  (forall key n,
     files w !! key = Some n ->
     files w1 !! key = Some n
     \/ (key = Fs.names v /\ (exists old, n = Fs.File old)
         /\ files w1 !! key = Some (Fs.File (Utf8.encode content))))
  /\ (forall key,
        files w !! key = None ->
        files w1 !! key = None \/ files w1 !! key = Some Fs.Directory
        \/ (key = Fs.names v
            /\ files w1 !! key = Some (Fs.File (Utf8.encode content))))
  /\ (calls w1 = calls w
      \/ calls w1 = CallMkdir (Path.dirname v) :: calls w
      \/ calls w1 = CallWriteFile v content :: CallMkdir (Path.dirname v) :: calls w).
Proof.
  intros _ _. cbv zeta. split; [|split].
  - intros key n Hk. by apply write_file_entry_kept.
  - intros key. apply write_file_tree.
  - rewrite write_file_run.
    destruct (validatePath proc filePath) as [e|v] eqn:Ev; [by left|].
    apply validatePath_accepts in Ev as [<- _]. cbv zeta.
    destruct (Fs.mkdir_p _ _ _) as [t [e|]]; [by right; left|].
    by destruct (Fs.store _ _ _) as [t' [e|]]; right; right.
Qed.

(** Writing /allowed/sub/new.txt into the sample tree without its link
    leaves /allowed/notes.txt as it is. *)
Lemma write_file_touches_only_its_path_witness :
  let before := {| files := delete [lit "allowed"; lit "link"] Sample.tree;
                   calls := [] |} in
  let after := fst (write_file Sample.at_root (lit "sub/new.txt") (lit "x") before) in
  files after !! [lit "allowed"; lit "notes.txt"]
    = Some (Fs.File (Utf8.encode (lit "remember")))
  \/ ([lit "allowed"; lit "notes.txt"]
        = Fs.names (Path.resolve (cwd Sample.at_root) (lit "sub/new.txt"))
      /\ (exists old, Fs.File (Utf8.encode (lit "remember")) = Fs.File old)
      /\ files after !! [lit "allowed"; lit "notes.txt"]
         = Some (Fs.File (Utf8.encode (lit "x")))).
Proof.
  cbv zeta.
  refine (proj1 (write_file_touches_only_its_path Sample.at_root
                   {| files := delete [lit "allowed"; lit "link"] Sample.tree;
                      calls := [] |}
                   (lit "sub/new.txt") (lit "x") _ _)
            [lit "allowed"; lit "notes.txt"] _ _).
  - vm_compute. reflexivity.
  - vm_compute. reflexivity.
  - vm_compute. reflexivity.
Defined.

(** X8.  The last write wins.  Writing [c1] and then [c2] to the same
    candidate leaves the same file tree, and returns the same result for the
    second call, as writing [c2] alone. *)
Theorem last_write_wins proc w filePath c1 c2 :
  let w1 := fst (write_file proc filePath c1 w) in
  files (fst (write_file proc filePath c2 w1)) = files (fst (write_file proc filePath c2 w))
  /\ snd (write_file proc filePath c2 w1) = snd (write_file proc filePath c2 w).
Proof.
  cbv zeta. rewrite (write_file_run proc filePath c1 w), (write_file_run proc filePath c2 w).
  destruct (validatePath proc filePath) as [e|v] eqn:Ev; cbn [fst snd].
  { by rewrite write_file_run, Ev. }
  cbv zeta.
  destruct (Fs.mkdir_p (files w) Fs.root_dir (Fs.names (Path.dirname v)))
    as [t [e|]] eqn:Em; cbn [fst snd].
  { rewrite write_file_run, Ev. cbn [files with_files record].
    by rewrite (mkdir_p_again _ _ _ _ _ Em). }
  destruct (Fs.store t (Fs.names v) (Utf8.encode c1)) as [t1 e1] eqn:Es1.
  pose proof (store_bytes _ _ _ (Utf8.encode c2) _ _ Es1) as Es2. rewrite Es2.
  destruct e1 as [e1|]; cbn [fst snd].
  - apply store_failed in Es1 as ->.
    rewrite write_file_run, Ev. cbn [files with_files record].
    by rewrite (mkdir_p_again _ _ _ _ _ Em), Es2.
  - rewrite write_file_run, Ev. cbn [files with_files record].
    rewrite (mkdir_p_after_store _ _ _ _ _ _ _ Em Es1).
    pose proof (store_again _ _ _ _ _ Es1) as Es1'.
    rewrite (store_bytes _ _ _ (Utf8.encode c2) _ _ Es1').
    apply store_ok in Es1 as (-> & _ & _). cbn [fst snd files with_files].
    by rewrite insert_insert_eq.
Qed.



(** X10.  Writing to a path that is an existing directory (the allowed root
    itself, which the guard accepts, or any directory under it) fails with
    EISDIR and leaves the tree as it was. *)
Theorem write_file_on_directory proc w filePath content v :
  Path.isAbsolute (cwd proc) = true ->
  validatePath proc filePath = inr v ->
  Fs.lookup_path (files w) (Fs.names v) = inr Fs.Directory ->
  let run := write_file proc filePath content w in
  files (fst run) = files w
  /\ snd run
     = inr {| text := lit "Error writing file " ++ filePath ++ lit ": "
                        ++ lit "EISDIR: illegal operation on a directory, open "
                        ++ FsPromises.quote ++ v ++ FsPromises.quote;
              isError := Some true |}.
Proof.
  intros Hc Hv Hl. cbv zeta.
  destruct (validated_names _ _ _ Hc Hv) as (segs & Ev & _ & Hn & Hdir).
  rewrite write_file_run, Hv. cbv zeta.
  assert (Fs.mkdir_p (files w) Fs.root_dir (Fs.names (Path.dirname v)) = (files w, None)
          /\ Fs.store (files w) (Fs.names v) (Utf8.encode content)
             = (files w, Some Fs.EISDIR)) as [-> ->].
  { rewrite Hn in *. destruct (list_last_cases segs) as [->|(parent & n & ->)].
    - by rewrite Ev.
    - destruct (Hdir parent n eq_refl) as [_ ->].
      assert (forall r1 x r2, parent = r1 ++ x :: r2 ->
                files w !! (r1 ++ [x]) = Some Fs.Directory) as Hdirs.
      { intros r1 x r2 ->. apply (lookup_path_prefixes _ _ Hl r1 x (r2 ++ [n])).
        by rewrite <- app_assoc. }
      split; [by apply mkdir_p_noop|].
      unfold Fs.store. rewrite rev_app_distr. cbn [rev app]. rewrite rev_involutive.
      unfold Fs.lookup_path. rewrite (walk_dirs _ Fs.root_dir parent) by done.
      by rewrite (lookup_path_prefixes _ _ Hl parent n []). }
  done.
Qed.

Lemma write_file_on_directory_witness :
  let run := write_file Sample.at_root (lit "/allowed") (lit "x") Sample.start in
  files (fst run) = files Sample.start
  /\ snd run
     = inr {| text := lit "Error writing file /allowed: EISDIR: illegal operation on a directory, open '/allowed'";
              isError := Some true |}.
Proof.
  exact (write_file_on_directory Sample.at_root Sample.start (lit "/allowed")
           (lit "x") (lit "/allowed") eq_refl eq_refl eq_refl).
Defined.



(** The general auto-creation at work where only /allowed exists. *)
Lemma write_file_parent_chain_witness :
  exists w1,
    write_file Sample.at_root (lit "sub/dir/file.txt") (lit "c") Sample.bare
      = (w1, inr {| text := lit "Successfully wrote to file: sub/dir/file.txt";
                    isError := None |})
    /\ files w1 !! [lit "allowed"; lit "sub"; lit "dir"] = Some Fs.Directory
    /\ files w1 !! [lit "allowed"; lit "sub"; lit "dir"; lit "file.txt"]
       = Some (Fs.File (Utf8.encode (lit "c"))).
Proof.
  destruct (write_file_parent_chain Sample.at_root Sample.bare
              (lit "sub/dir/file.txt") (lit "c") (lit "/allowed/sub/dir/file.txt")
              [lit "allowed"; lit "sub"; lit "dir"] (lit "file.txt"))
    as (w1 & Hw & _ & Hdirs & Hfile & _).
  - reflexivity.
  - reflexivity.
  - vm_compute. reflexivity.
  - vm_compute. reflexivity.
  - vm_compute. reflexivity.
  - intros r1 x r2 E.
    destruct r1 as [|a [|b [|c r1]]]; injection E as; subst;
      try (by left); try (by right); try (vm_compute; by left).
    all: try (right; vm_compute; reflexivity).
    by destruct r1.
  - left. vm_compute. reflexivity.
  - exists w1. split; [exact Hw|]. split; [|exact Hfile].
    exact (Hdirs [lit "allowed"; lit "sub"] (lit "dir") [] eq_refl).
Defined.

(** A directory created inside the root. *)
Lemma created_directories_inside_witness :
  Spec.dir_inside
    (Fs.names (Path.resolve (cwd Sample.at_root) (ALLOWED_DIRECTORY Sample.at_root)))
    [lit "allowed"; lit "sub"] = true.
Proof.
  apply (created_directories_inside Sample.at_root Sample.bare
           (lit "sub/dir/file.txt") (lit "c") (lit "/allowed/sub/dir/file.txt")
           (fst (write_file Sample.at_root (lit "sub/dir/file.txt") (lit "c") Sample.bare))
           (snd (write_file Sample.at_root (lit "sub/dir/file.txt") (lit "c") Sample.bare))).
  - reflexivity.
  - reflexivity.
  - vm_compute. reflexivity.
  - vm_compute. reflexivity.
  - vm_compute. reflexivity.
  - vm_compute. reflexivity.
  - vm_compute. reflexivity.
Defined.
